(** * Bulk ingestion of go-sonic: line codec, partitioner and bulk dispatcher

    Shallow embedding of [sonic/ingester.go].  Go strings are byte
    sequences ([list byte]); Go [int] is a 64-bit signed integer, modelled as
    [Z] with the wrap-around written out where a caller-controlled operand can
    reach the limits.  Code that can panic, block or loop returns a [result]. *)

From Stdlib Require Import List ZArith Lia Bool Permutation.
From Stdlib Require Import Strings.Byte.
Import ListNotations.
Open Scope Z_scope.

(** ** Outcomes of Go code *)

(** [Ok v]: returns [v]; [Panic]: a run-time panic (index or slice out of
    range, division by zero, nil dereference); [Diverge]: never returns
    (endless loop, or a read that blocks forever).  A fuel-bounded loop
    returns [Diverge] when its fuel runs out. *)
Inductive result (A : Type) : Type :=
| Ok (v : A)
| Panic
| Diverge.
Arguments Ok {A} v.
Arguments Panic {A}.
Arguments Diverge {A}.

(** ** Go integers *)

Definition max_int : Z := 2 ^ 63 - 1.
Definition min_int : Z := - 2 ^ 63.

(** Two's-complement wrap-around of a 64-bit [int]. *)
Definition wrap64 (z : Z) : Z := (z + 2 ^ 63) mod 2 ^ 64 - 2 ^ 63.

(** ** Bytes and slicing *)

Definition bz (b : byte) : Z := Z.of_N (Byte.to_N b).

(** [s[l:r]]: panics unless [0 <= l <= r <= len(s)]. *)
Definition slice {A} (s : list A) (l r : Z) : option (list A) :=
  if (0 <=? l) && (l <=? r) && (r <=? Z.of_nat (length s))
  then Some (firstn (Z.to_nat (r - l)) (skipn (Z.to_nat l) s))
  else None.

(** ** unicode/utf8 *)

(** [utf8.RuneStart]: [b&0xC0 != 0x80]. *)
Definition RuneStart (b : byte) : bool := negb (Z.land (bz b) 0xC0 =? 0x80).

Definition in_range (lo hi : Z) (b : byte) : bool := (lo <=? bz b) && (bz b <=? hi).

(** One well-formed UTF-8 encoding of a rune, as [utf8.ValidString] accepts
    it: the first byte selects the length and the admissible range of the
    second byte (no overlong forms, no surrogates, nothing above U+10FFFF). *)
Definition valid_rune (r : list byte) : bool :=
  match r with
  | [b1] => bz b1 <? 0x80
  | [b1; b2] => in_range 0xC2 0xDF b1 && in_range 0x80 0xBF b2
  | [b1; b2; b3] =>
      ((bz b1 =? 0xE0) && in_range 0xA0 0xBF b2
       || in_range 0xE1 0xEC b1 && in_range 0x80 0xBF b2
       || (bz b1 =? 0xED) && in_range 0x80 0x9F b2
       || in_range 0xEE 0xEF b1 && in_range 0x80 0xBF b2)
      && in_range 0x80 0xBF b3
  | [b1; b2; b3; b4] =>
      ((bz b1 =? 0xF0) && in_range 0x90 0xBF b2
       || in_range 0xF1 0xF3 b1 && in_range 0x80 0xBF b2
       || (bz b1 =? 0xF4) && in_range 0x80 0x8F b2)
      && in_range 0x80 0xBF b3 && in_range 0x80 0xBF b4
  | _ => false
  end.

(** [utf8.ValidString]: the string is a sequence of well-formed runes. *)
Fixpoint ValidString (s : list byte) : bool :=
  match s with
  | [] => true
  | b1 :: t1 =>
      valid_rune [b1] && ValidString t1
      || match t1 with
         | [] => false
         | b2 :: t2 =>
             valid_rune [b1; b2] && ValidString t2
             || match t2 with
                | [] => false
                | b3 :: t3 =>
                    valid_rune [b1; b2; b3] && ValidString t3
                    || match t3 with
                       | [] => false
                       | b4 :: t4 => valid_rune [b1; b2; b3; b4] && ValidString t4
                       end
                end
         end
  end.

(** ** splitText *)

(** [for !utf8.RuneStart(longString[r]) { r-- }] started at the index
    [n >= 0]: [None] is the panic of [longString[r]] out of range, either
    at the start or once [r] has gone down to [-1]. *)
Fixpoint walk_back_n (s : list byte) (n : nat) : option nat :=
  match nth_error s n with
  | None => None
  | Some b =>
      if RuneStart b then Some n
      else match n with
           | O => None
           | S n' => walk_back_n s n'
           end
  end.

Definition walk_back (s : list byte) (r : Z) : option Z :=
  if r <? 0 then None else option_map Z.of_nat (walk_back_n s (Z.to_nat r)).

(** The outer loop of [splitText], one unit of fuel per iteration.
    [r + maxLen] is not wrapped: the loop only runs while [r < len(s)], so
    after the first walk [maxLen < len(s)] and every index stays below
    [2 * len(s)]. *)
Fixpoint split_loop (fuel : nat) (s : list byte) (maxLen l r : Z)
    (splits : list (list byte)) : result (list (list byte)) :=
  match fuel with
  | O => Diverge
  | S f =>
      if r <? Z.of_nat (length s) then
        match walk_back s r with
        | None => Panic
        | Some r' =>
            match slice s l r' with
            | None => Panic
            | Some c => split_loop f s maxLen r' (r' + maxLen) (splits ++ [c])
            end
        end
      else
        match slice s l (Z.of_nat (length s)) with
        | None => Panic
        | Some c => Ok (splits ++ [c])
        end
  end.

Definition splitText_fuel (fuel : nat) (longString : list byte) (maxLen : Z) :=
  split_loop fuel longString maxLen 0 maxLen [].

(** [splitText(longString, maxLen)] with [len(longString) + 1] iterations
    of fuel, enough for every run whose left index moves forward. *)
Definition splitText (longString : list byte) (maxLen : Z) :=
  splitText_fuel (S (length longString)) longString maxLen.

(** ** Escaping in Push *)

(** [strings.Replace(s, old, new, -1)] for a one-byte [old], as at every
    call site: each occurrence of [old] is replaced by [new]. *)
Definition Replace (s : list byte) (old : byte) (new : list byte) : list byte :=
  flat_map (fun b => if Byte.eqb b old then new else [b]) s.

(** The [patterns] table of [Push], in source order. *)
Definition patterns : list (byte * list byte) :=
  [(x5c, [x5c; x5c]); (x0a, [x5c; x6e]); (x22, [x5c; x22])].

(** [for _, v := range patterns { text = strings.Replace(text, ...) }] *)
Definition escape (text : list byte) : list byte :=
  fold_left (fun t v => Replace t (fst v) (snd v)) patterns text.

(** Reading of the escaping, one escape per reserved byte (not in the
    source: the inverse the round-trip law refers to). *)
Definition esc_byte (b : byte) : list byte :=
  if Byte.eqb b x5c then [x5c; x5c]
  else if Byte.eqb b x0a then [x5c; x6e]
  else if Byte.eqb b x22 then [x5c; x22]
  else [b].

(** Reversal of the escaping (spec side), scanned left to right: a
    backslash followed by a backslash, by [n] or by a double quote stands
    for a backslash, a newline or a double quote. *)
Fixpoint unescape (s : list byte) : list byte :=
  match s with
  | [] => []
  | b1 :: t1 =>
      match t1 with
      | [] => [b1]
      | b2 :: t2 =>
          if Byte.eqb b1 x5c then
            if Byte.eqb b2 x5c then x5c :: unescape t2
            else if Byte.eqb b2 x6e then x0a :: unescape t2
            else if Byte.eqb b2 x22 then x22 :: unescape t2
            else b1 :: unescape t1
          else b1 :: unescape t1
      end
  end.

(** ** Records, errors and the partitioner *)

Record IngestBulkRecord := { Object : list byte; Text : list byte }.

(** The [error] values the bulk operations report: [ErrClosed], or an
    error of the transport, told apart by a tag. *)
Inductive error := ErrClosed | ErrIO (tag : nat).

Record IngestBulkError := { EObject : list byte; Error : error }.

(** The body of [for i := 0; i < len(records); i += chunkSize], one unit of
    fuel per iteration.  [i + chunkSize] stays below [2 * len(records)]. *)
Fixpoint divide_loop (fuel : nat) (records : list IngestBulkRecord)
    (chunkSize i : Z) (divided : list (list IngestBulkRecord))
    : result (list (list IngestBulkRecord)) :=
  match fuel with
  | O => Diverge
  | S f =>
      if i <? Z.of_nat (length records) then
        let end_ := i + chunkSize in
        let end_ := if end_ >? Z.of_nat (length records)
                    then Z.of_nat (length records) else end_ in
        match slice records i end_ with
        | None => Panic
        | Some part => divide_loop f records chunkSize (i + chunkSize) (divided ++ [part])
        end
      else Ok divided
  end.

(** [divideIngestBulkRecords]: Go's [/] truncates toward zero ([Z.quot]) and
    panics on a zero divisor; [len(records) + parallelRoutines - 1] wraps. *)
Definition divideIngestBulkRecords (records : list IngestBulkRecord)
    (parallelRoutines : Z) : result (list (list IngestBulkRecord)) :=
  if parallelRoutines =? 0 then Panic
  else
    let chunkSize :=
      wrap64 (Z.quot (wrap64 (Z.of_nat (length records) + parallelRoutines - 1))
                     parallelRoutines) in
    divide_loop (S (length records)) records chunkSize 0 [].

(** [if parallelRoutines <= 0 { parallelRoutines = 1 }] *)
Definition clamp (parallelRoutines : Z) : Z :=
  if parallelRoutines <=? 0 then 1 else parallelRoutines.

(** ** The connection layer *)

(** Outcome of one [write] or [read]. *)
Inductive io := IOk | IErr (e : error) | IBlock | IPanic.

(** Modelled from the spec: the connection adapter of section 4.2 (the
    [driver], [newConnection] and the [connection] methods, which are not
    in this file).  [write] and [read] answer [Ok] or an I/O error, and
    nothing fixes what they do on a [nil] connection, so each outcome is
    left to an oracle: [newConnection_ok k] says whether worker [k] got a
    connection; [drv_write]/[drv_read] answer the writes and reads of the
    driver connection [i] shared by all workers; [conn_write k opened] and
    [conn_read k opened] answer those of worker [k] on its own [conn]
    ([opened = false]: [conn] is [nil]).  [close] is safe and idempotent,
    also on a connection never opened, so it has no outcome. *)
Record Env := {
  cmdMaxBytes : Z;
  newConnection_ok : nat -> bool;
  drv_write : list byte -> io;
  drv_read : list byte -> io;
  conn_write : nat -> bool -> list byte -> io;
  conn_read : nat -> bool -> IngestBulkRecord -> io
}.

(** [push] and [pop]: the ASCII bytes of PUSH and POP. *)
Definition push_verb : list byte := [x50; x55; x53; x48].
Definition pop_verb : list byte := [x50; x4f; x50].

(** [fmt.Sprintf("%s %s %s %s \"%s\"", verb, collection, bucket, object, text)] *)
Definition command (verb collection bucket object text : list byte) : list byte :=
  verb ++ [x20] ++ collection ++ [x20] ++ bucket ++ [x20] ++ object
       ++ [x20; x22] ++ text ++ [x22].

Section Ingester.

Variable env : Env.
Variables collection bucket : list byte.

(** The loop of [Push] over the chunks: write, then read the OK; the first
    error is returned ([Ok (Some e)]), [Ok None] is [return nil]. *)
Fixpoint push_chunks (object : list byte) (chunks : list (list byte))
    : result (option error) :=
  match chunks with
  | [] => Ok None
  | chunk :: rest =>
      let line := command push_verb collection bucket object chunk in
      match drv_write env line with
      | IErr e => Ok (Some e)
      | IBlock => Diverge
      | IPanic => Panic
      | IOk =>
          match drv_read env line with
          | IErr e => Ok (Some e)
          | IBlock => Diverge
          | IPanic => Panic
          | IOk => push_chunks object rest
          end
      end
  end.

(** [ingesterChannel.Push] on the driver connection. *)
Definition Push (object text : list byte) : result (option error) :=
  match splitText (escape text) (Z.quot (cmdMaxBytes env) 2) with
  | Ok chunks => push_chunks object chunks
  | Panic => Panic
  | Diverge => Diverge
  end.

(** [ingesterChannel.Pop] on the driver connection: the text is written as
    given, without the escaping of [Push]. *)
Definition Pop (object text : list byte) : result (option error) :=
  let line := command pop_verb collection bucket object text in
  match drv_write env line with
  | IErr e => Ok (Some e)
  | IBlock => Diverge
  | IPanic => Panic
  | IOk =>
      match drv_read env line with
      | IErr e => Ok (Some e)
      | IBlock => Diverge
      | IPanic => Panic
      | IOk => Ok None
      end
  end.

(** [addBulkError(&errs, rec, err, errMutex)] as seen by one worker: the
    RecordError it appends. *)
Definition bulk_error (rec : IngestBulkRecord) (e : error) : IngestBulkError :=
  {| EObject := Object rec; Error := e |}.

(** The goroutine of [BulkPush] for worker [k]: [opened] is [conn != nil];
    [errs] are the errors this worker has appended so far, in order. *)
Fixpoint bulk_push_worker (k : nat) (opened : bool) (recs : list IngestBulkRecord)
    (errs : list IngestBulkError) : result (list IngestBulkError) :=
  match recs with
  | [] => Ok errs
  | rec :: rest =>
      let errs := if opened then errs else errs ++ [bulk_error rec ErrClosed] in
      match Push (Object rec) (Text rec) with
      | Panic => Panic
      | Diverge => Diverge
      | Ok (Some e) => bulk_push_worker k opened rest (errs ++ [bulk_error rec e])
      | Ok None =>
          match conn_read env k opened rec with
          | IOk => bulk_push_worker k opened rest errs
          | IErr e => bulk_push_worker k opened rest (errs ++ [bulk_error rec e])
          | IBlock => Diverge
          | IPanic => Panic
          end
      end
  end.

(** The goroutine of [BulkPop] for worker [k]. *)
Fixpoint bulk_pop_worker (k : nat) (opened : bool) (recs : list IngestBulkRecord)
    (errs : list IngestBulkError) : result (list IngestBulkError) :=
  match recs with
  | [] => Ok errs
  | rec :: rest =>
      let errs := if opened then errs else errs ++ [bulk_error rec ErrClosed] in
      match conn_write env k opened
              (command pop_verb collection bucket (Object rec) (Text rec)) with
      | IErr e => bulk_pop_worker k opened rest (errs ++ [bulk_error rec e])
      | IBlock => Diverge
      | IPanic => Panic
      | IOk =>
          match conn_read env k opened rec with
          | IOk => bulk_pop_worker k opened rest errs
          | IErr e => bulk_pop_worker k opened rest (errs ++ [bulk_error rec e])
          | IBlock => Diverge
          | IPanic => Panic
          end
      end
  end.

End Ingester.

(** ** Joining the workers *)

(** [group.Wait()] over the workers' outcomes: a panicking goroutine ends
    the program; otherwise one that never finishes keeps [Wait] blocked. *)
Fixpoint collect {A} (rs : list (result A)) : result (list A) :=
  match rs with
  | [] => Ok []
  | r :: rest =>
      match r, collect rest with
      | Panic, _ | _, Panic => Panic
      | Diverge, _ | _, Diverge => Diverge
      | Ok a, Ok l => Ok (a :: l)
      end
  end.

(** [for _, r := range divided { go func(recs) {...}(r) }]: worker [k] gets
    partition [k]. *)
Fixpoint spawn {A B} (f : nat -> A -> B) (k : nat) (l : list A) : list B :=
  match l with
  | [] => []
  | x :: rest => f k x :: spawn f (S k) rest
  end.

(** The appends to the shared [errs], each one under [errMutex]: the list
    read after [group.Wait()] is an interleaving of the workers' own
    sequences of appends. *)
Inductive interleaving {A} : list (list A) -> list A -> Prop :=
| il_done : forall ls, Forall (fun l => l = []) ls -> interleaving ls []
| il_step : forall ls1 x xs ls2 out,
    interleaving (ls1 ++ xs :: ls2) out ->
    interleaving (ls1 ++ (x :: xs) :: ls2) (x :: out).

Definition BulkPush_workers (env : Env) (collection bucket : list byte)
    (parallelRoutines : Z) (records : list IngestBulkRecord)
    : result (list (list IngestBulkError)) :=
  match divideIngestBulkRecords records (clamp parallelRoutines) with
  | Ok divided =>
      collect (spawn (fun k recs =>
                 bulk_push_worker env collection bucket k (newConnection_ok env k) recs [])
               0 divided)
  | Panic => Panic
  | Diverge => Diverge
  end.

Definition BulkPop_workers (env : Env) (collection bucket : list byte)
    (parallelRoutines : Z) (records : list IngestBulkRecord)
    : result (list (list IngestBulkError)) :=
  match divideIngestBulkRecords records (clamp parallelRoutines) with
  | Ok divided =>
      collect (spawn (fun k recs =>
                 bulk_pop_worker env collection bucket k (newConnection_ok env k) recs [])
               0 divided)
  | Panic => Panic
  | Diverge => Diverge
  end.

(** [BulkPush] returns [errs]. *)
Definition BulkPush_returns env collection bucket parallelRoutines records
    (errs : list IngestBulkError) : Prop :=
  exists ws, BulkPush_workers env collection bucket parallelRoutines records = Ok ws
             /\ interleaving ws errs.

(** [BulkPop] returns [errs]. *)
Definition BulkPop_returns env collection bucket parallelRoutines records
    (errs : list IngestBulkError) : Prop :=
  exists ws, BulkPop_workers env collection bucket parallelRoutines records = Ok ws
             /\ interleaving ws errs.

(** ** The shared error list under errMutex *)

(** Where a worker stands in its sequence of [addBulkError] calls.  A
    worker's steps other than these touch no shared state (its own
    [conn], and the answers of the connection layer, which are oracle
    values), so the appends are the only steps to interleave; the sequence
    of appends of worker [k] is the list its goroutine computes.
    [AtLock p]: about to call [mutex.Lock()] for the first of the pending
    appends [p], or, when [p] is empty, [group.Done()];
    [InCrit x p]: holds the mutex, about to read [*e] to append [x];
    [Loaded x cur p]: has read [*e] as [cur];
    [Stored p]: has written [*e = append(cur, x)], the deferred
    [mutex.Unlock()] is next;
    [Finished]: has called [group.Done()]. *)
Inductive wstate :=
| AtLock (pending : list IngestBulkError)
| InCrit (x : IngestBulkError) (pending : list IngestBulkError)
| Loaded (x : IngestBulkError) (cur : list IngestBulkError) (pending : list IngestBulkError)
| Stored (pending : list IngestBulkError)
| Finished.

(** The state shared by the goroutines of one [BulkPush]/[BulkPop] call:
    the workers, the slice [errs], [errMutex], the counter of [group] and
    what the calling goroutine has returned. *)
Record gstate := {
  threads : list wstate;
  shared : list IngestBulkError;
  mutex_held : bool;
  wg_counter : nat;
  returned : option (list IngestBulkError)
}.

(** Who takes the next step: worker [k], or the calling goroutine. *)
Inductive actor := Worker (k : nat) | Caller.

Fixpoint set_nth {A} (l : list A) (k : nat) (x : A) : list A :=
  match l, k with
  | [], _ => []
  | _ :: t, O => x :: t
  | y :: t, S k' => y :: set_nth t k' x
  end.

Definition set_thread (st : gstate) (k : nat) (t : wstate) (sh : list IngestBulkError)
    (m : bool) (c : nat) : gstate :=
  {| threads := set_nth (threads st) k t; shared := sh; mutex_held := m;
     wg_counter := c; returned := returned st |}.

(** One step; [None] when the actor cannot move: [Lock] on a held mutex
    blocks, [group.Wait()] blocks while the counter is not zero. *)
Definition step (a : actor) (st : gstate) : option gstate :=
  match a with
  | Caller =>
      match wg_counter st, returned st with
      | O, None =>
          Some {| threads := threads st; shared := shared st; mutex_held := mutex_held st;
                  wg_counter := O; returned := Some (shared st) |}
      | _, _ => None
      end
  | Worker k =>
      match nth_error (threads st) k with
      | Some (AtLock (x :: p)) =>
          if mutex_held st then None
          else Some (set_thread st k (InCrit x p) (shared st) true (wg_counter st))
      | Some (AtLock []) =>
          Some (set_thread st k Finished (shared st) (mutex_held st) (wg_counter st - 1))
      | Some (InCrit x p) =>
          Some (set_thread st k (Loaded x (shared st) p) (shared st) (mutex_held st) (wg_counter st))
      | Some (Loaded x cur p) =>
          Some (set_thread st k (Stored p) (cur ++ [x]) (mutex_held st) (wg_counter st))
      | Some (Stored p) =>
          Some (set_thread st k (AtLock p) (shared st) false (wg_counter st))
      | Some Finished | None => None
      end
  end.

(** A run under a schedule; [None] if a scheduled actor cannot move. *)
Fixpoint exec (sched : list actor) (st : gstate) : option gstate :=
  match sched with
  | [] => Some st
  | a :: rest => match step a st with Some st' => exec rest st' | None => None end
  end.

(** After [group.Add(len(divided))] and the [go] statements: one worker per
    partition with its appends pending, [errs] empty. *)
Definition init_state (ws : list (list IngestBulkError)) : gstate :=
  {| threads := map AtLock ws; shared := []; mutex_held := false;
     wg_counter := length ws; returned := None |}.

Definition in_crit (t : wstate) : bool :=
  match t with InCrit _ _ | Loaded _ _ _ | Stored _ => true | _ => false end.

Fixpoint countb {A} (f : A -> bool) (l : list A) : nat :=
  match l with [] => O | x :: t => (if f x then 1 else 0) + countb f t end.

(** The same appends without [errMutex] (not the code: the contrast that
    shows what the mutex is for): [Lock] never blocks. *)
Definition step_unsync (a : actor) (st : gstate) : option gstate :=
  match a with
  | Worker k =>
      match nth_error (threads st) k with
      | Some (AtLock (x :: p)) =>
          Some (set_thread st k (InCrit x p) (shared st) (mutex_held st) (wg_counter st))
      | _ => step a st
      end
  | Caller => step a st
  end.

Fixpoint exec_unsync (sched : list actor) (st : gstate) : option gstate :=
  match sched with
  | [] => Some st
  | a :: rest => match step_unsync a st with Some st' => exec_unsync rest st' | None => None end
  end.

(** The appends still to come of a worker. *)
Definition rem (t : wstate) : list IngestBulkError :=
  match t with
  | AtLock p | Stored p => p
  | InCrit x p | Loaded x _ p => x :: p
  | Finished => []
  end.

Definition finishedb (t : wstate) : bool := match t with Finished => true | _ => false end.

(** The entries of [out] whose tag is [j], in order. *)
Fixpoint tagged (j : nat) (tags : list nat) (out : list IngestBulkError) : list IngestBulkError :=
  match tags, out with
  | t :: ts, x :: xs => if (t =? j)%nat then x :: tagged j ts xs else tagged j ts xs
  | _, _ => []
  end.

(** Invariant of the runs from [init_state ws]: the mutex is held exactly
    when one worker is in its critical section; a worker that has read
    [*e] has read the current [errs]; the counter of [group] counts the
    workers that have not called [Done]; the caller returns [errs] only
    when the counter is zero; each entry of [errs] can be attributed to a
    worker so that worker [k] has appended exactly the first entries of its
    own list, in order, and the rest of its list is still to come. *)
Definition appends_inv (ws : list (list IngestBulkError)) (st : gstate) : Prop :=
  length (threads st) = length ws /\
  countb in_crit (threads st) = (if mutex_held st then 1 else 0)%nat /\
  (forall k x cur p, nth_error (threads st) k = Some (Loaded x cur p) -> cur = shared st) /\
  wg_counter st = countb (fun t => negb (finishedb t)) (threads st) /\
  (forall e, returned st = Some e -> e = shared st /\ wg_counter st = O) /\
  exists tags, length tags = length (shared st) /\ Forall (fun t => (t < length ws)%nat) tags /\
    forall k l t, nth_error ws k = Some l -> nth_error (threads st) k = Some t ->
      l = tagged k tags (shared st) ++ rem t.

(** ** Count *)

(** The two kinds of [*strconv.NumError]. *)
Inductive strconv_error := ErrSyntax | ErrRange.

Definition max_uint64 : Z := 2 ^ 64 - 1.

Definition is_digit (c : byte) : bool := in_range 0x30 0x39 c.

(** The digit loop of [strconv.ParseUint(s, 10, 64)]: a non-digit is a
    syntax error; [n >= cutoff] ([cutoff = maxUint64/10 + 1]) or a sum
    above [maxUint64] (Go's [n1 < n || n1 > maxVal]) is a range error with
    value [maxUint64]. *)
Fixpoint parse_uint_loop (n : Z) (s : list byte) : Z * option strconv_error :=
  match s with
  | [] => (n, None)
  | c :: t =>
      if negb (is_digit c) then (0, Some ErrSyntax)
      else if n >=? max_uint64 / 10 + 1 then (max_uint64, Some ErrRange)
      else
        let n1 := n * 10 + (bz c - 0x30) in
        if n1 >? max_uint64 then (max_uint64, Some ErrRange)
        else parse_uint_loop n1 t
  end.

(** [strconv.ParseUint(s, 10, 64)] *)
Definition ParseUint (s : list byte) : Z * option strconv_error :=
  match s with
  | [] => (0, Some ErrSyntax)
  | _ => parse_uint_loop 0 s
  end.

(** [strconv.ParseInt(s, 10, 64)]: optional sign, then [ParseUint]; a
    syntax error gives 0, a magnitude beyond [int64] is clamped with a
    range error. *)
Definition ParseInt (s : list byte) : Z * option strconv_error :=
  match s with
  | [] => (0, Some ErrSyntax)
  | c :: t =>
      let '(neg, s') :=
        if Byte.eqb c x2b then (false, t)
        else if Byte.eqb c x2d then (true, t)
        else (false, s) in
      match ParseUint s' with
      | (_, Some ErrSyntax) => (0, Some ErrSyntax)
      | (un, _) =>
          if negb neg && (un >=? 2 ^ 63) then (2 ^ 63 - 1, Some ErrRange)
          else if neg && (un >? 2 ^ 63) then (- 2 ^ 63, Some ErrRange)
          else (if neg then - un else un, None)
      end
  end.

(** The digit loop of the fast path of [strconv.Atoi]: [ch -= '0'] wraps
    as a byte, so any byte outside ['0'..'9'] fails [ch > 9].  At most 18
    digits: [n] stays below [10^18] and never wraps. *)
Fixpoint atoi_fast_loop (n : Z) (s : list byte) : option Z :=
  match s with
  | [] => Some n
  | ch :: t => if is_digit ch then atoi_fast_loop (n * 10 + (bz ch - 0x30)) t else None
  end.

(** [strconv.Atoi] on a 64-bit platform: strings of 1 to 18 bytes take the
    fast path, the others go through [ParseInt(s, 10, 0)]. *)
Definition Atoi (s : list byte) : Z * option strconv_error :=
  if (0 <? Z.of_nat (length s)) && (Z.of_nat (length s) <? 19) then
    match s with
    | [] => (0, Some ErrSyntax)
    | c0 :: t =>
        let signed := Byte.eqb c0 x2d || Byte.eqb c0 x2b in
        let s' := if signed then t else s in
        if signed && (length s' =? 0)%nat then (0, Some ErrSyntax)
        else
          match atoi_fast_loop 0 s' with
          | None => (0, Some ErrSyntax)
          | Some n => (if Byte.eqb c0 x2d then - n else n, None)
          end
    end
  else ParseInt s.

(** Modelled from the spec: one [read()] of the driver connection, which
    returns a line or an I/O error (or blocks, or panics). *)
Inductive read_result := RLine (l : list byte) | RErr (e : error) | RBlock | RPanic.

(** The error [Count] returns: from the connection, or from [Atoi]. *)
Inductive count_error := CountIO (e : error) | CountParse (e : strconv_error).

(** [count]: the ASCII bytes of COUNT. *)
Definition count_verb : list byte := [x43; x4f; x55; x4e; x54].

(** [buildCountQuery(bucket, object)] *)
Definition buildCountQuery (bucket object : list byte) : list byte :=
  match bucket with
  | [] => []
  | _ => bucket ++ match object with [] => [] | _ => [x20] ++ object end
  end.

(** [fmt.Sprintf("%s %s %s", count, collection, buildCountQuery(bucket, object))] *)
Definition count_line (collection bucket object : list byte) : list byte :=
  count_verb ++ [x20] ++ collection ++ [x20] ++ buildCountQuery bucket object.

(** [ingesterChannel.Count]: [write] answers the written line, [reply] is
    the outcome of the following [read()]; [r[7:]] panics on a reply of
    fewer than 7 bytes. *)
Definition Count (write : list byte -> io) (reply : read_result)
    (collection bucket object : list byte) : result (Z * option count_error) :=
  match write (count_line collection bucket object) with
  | IErr e => Ok (0, Some (CountIO e))
  | IBlock => Diverge
  | IPanic => Panic
  | IOk =>
      match reply with
      | RErr e => Ok (0, Some (CountIO e))
      | RBlock => Diverge
      | RPanic => Panic
      | RLine r =>
          match slice r 7 (Z.of_nat (length r)) with
          | None => Panic
          | Some digits =>
              let '(n, err) := Atoi digits in Ok (n, option_map CountParse err)
          end
      end
  end.

(** Decimal value of a digit string read from the left, starting at [acc]
    (spec side). *)
Fixpoint decimal_from (acc : Z) (ds : list byte) : Z :=
  match ds with
  | [] => acc
  | d :: t => decimal_from (acc * 10 + (bz d - 0x30)) t
  end.

(** RESULT and a space. *)
Definition result_prefix : list byte := [x52; x45; x53; x55; x4c; x54; x20].

(** ** Concrete inputs *)

(** Five UTF-8 continuation bytes: not valid UTF-8. *)
Definition bad_utf8 : list byte := [x80; x80; x80; x80; x80].

(** U+1F600, four bytes. *)
Definition smiley : list byte := [xf0; x9f; x98; x80].

(** U+1F600, [a], U+1F600. *)
Definition sample : list byte := smiley ++ [x61] ++ smiley.

(** line1, newline, line2. *)
Definition line1_nl_line2 : list byte :=
  [x6c; x69; x6e; x65; x31; x0a; x6c; x69; x6e; x65; x32].

(** line1, backslash, n, line2. *)
Definition line1_esc_line2 : list byte :=
  [x6c; x69; x6e; x65; x31; x5c; x6e; x6c; x69; x6e; x65; x32].

(** hi between double quotes. *)
Definition quoted_hi : list byte := [x22; x68; x69; x22].

(** hi between escaped double quotes. *)
Definition quoted_hi_esc : list byte := [x5c; x22; x68; x69; x5c; x22].

(** Records with objects A to E and text x. *)
Definition rec_of (o : byte) : IngestBulkRecord := {| Object := [o]; Text := [x78] |}.
Definition five_records : list IngestBulkRecord :=
  [rec_of x41; rec_of x42; rec_of x43; rec_of x44; rec_of x45].
Definition two_records : list IngestBulkRecord := [rec_of x41; rec_of x42].

(** Two workers taking turns at [errMutex]: each makes one
    [addBulkError] call (Lock, read, store, Unlock), then the other. *)
Definition sched_alternate : list actor :=
  [Worker 0; Worker 0; Worker 0; Worker 0; Worker 1; Worker 1; Worker 1; Worker 1;
   Worker 0; Worker 0; Worker 0; Worker 0; Worker 1; Worker 1; Worker 1; Worker 1;
   Worker 0; Worker 1; Caller].

(** Both workers Lock, read and store before either unlocks. *)
Definition sched_overlap : list actor :=
  [Worker 0; Worker 1; Worker 0; Worker 1; Worker 0; Worker 1; Worker 0; Worker 1;
   Worker 0; Worker 1; Caller].

(** No connection can be opened, and every write of the driver connection
    fails; reading a [nil] connection is left as a panic. *)
Definition env_down : Env := {|
  cmdMaxBytes := 20000;
  newConnection_ok := fun _ => false;
  drv_write := fun _ => IErr (ErrIO 0);
  drv_read := fun _ => IErr (ErrIO 0);
  conn_write := fun _ opened _ => if opened then IOk else IPanic;
  conn_read := fun _ opened _ => if opened then IOk else IPanic
|}.

(** No connection can be opened; the driver connection accepts the write
    but its acknowledgement fails. *)
Definition env_ack_fails : Env := {|
  cmdMaxBytes := 20000;
  newConnection_ok := fun _ => false;
  drv_write := fun _ => IOk;
  drv_read := fun _ => IErr (ErrIO 7);
  conn_write := fun _ opened _ => if opened then IOk else IPanic;
  conn_read := fun _ opened _ => if opened then IOk else IPanic
|}.

(** Every write and read of the driver connection succeeds. *)
Definition env_all_ok : Env := {|
  cmdMaxBytes := 20000;
  newConnection_ok := fun _ => true;
  drv_write := fun _ => IOk;
  drv_read := fun _ => IOk;
  conn_write := fun _ _ _ => IOk;
  conn_read := fun _ _ _ => IOk
|}.

(** As [env_all_ok], except that the driver connection fails a write of a
    line that holds a newline byte. *)
Definition env_rejects_newline : Env := {|
  cmdMaxBytes := 20000;
  newConnection_ok := fun _ => true;
  drv_write := fun line => if existsb (Byte.eqb x0a) line then IErr (ErrIO 0) else IOk;
  drv_read := fun _ => IOk;
  conn_write := fun _ _ _ => IOk;
  conn_read := fun _ _ _ => IOk
|}.

(** No connection can be opened; the [nil] connection's write fails for
    a line that holds the byte A and succeeds otherwise, and its read
    fails. *)
Definition env_pop_mixed : Env := {|
  cmdMaxBytes := 20000;
  newConnection_ok := fun _ => false;
  drv_write := fun _ => IOk;
  drv_read := fun _ => IOk;
  conn_write := fun _ _ line => if existsb (Byte.eqb x41) line then IErr (ErrIO 1) else IOk;
  conn_read := fun _ _ _ => IErr (ErrIO 2)
|}.

(** * Proofs *)

(** ** Bytes and UTF-8 *)

Lemma cont_not_start : forall b, 0x80 <= bz b <= 0xBF -> RuneStart b = false.
Proof. intros b H; destruct b; unfold bz in H; simpl in H; first [reflexivity | lia]. Qed.

Lemma lead_start : forall b, bz b < 0x80 \/ 0xC0 <= bz b -> RuneStart b = true.
Proof. intros b H; destruct b; unfold bz in H; simpl in H; first [reflexivity | lia]. Qed.

Ltac bool_to_prop :=
  repeat match goal with
  | H : (_ && _) = true |- _ => apply andb_prop in H; destruct H
  | H : (_ || _) = true |- _ => apply orb_prop in H; destruct H
  | H : (_ <=? _) = true |- _ => apply Z.leb_le in H
  | H : (_ <? _) = true |- _ => apply Z.ltb_lt in H
  | H : (_ =? _) = true |- _ => apply Z.eqb_eq in H
  | H : in_range _ _ _ = true |- _ => unfold in_range in H
  end.

(** A well-formed rune is one ASCII byte, or a lead byte of [0xC0] or
    more followed by one to three continuation bytes. *)
Lemma rune_shape : forall r, valid_rune r = true ->
  (exists b, r = [b] /\ bz b < 0x80) \/
  (exists b cs, r = b :: cs /\ 0xC0 <= bz b /\
     Forall (fun c => 0x80 <= bz c <= 0xBF) cs /\ (1 <= length cs <= 3)%nat).
Proof.
  intros r H.
  destruct r as [|b1 [|b2 [|b3 [|b4 [|b5 r]]]]]; simpl in H; try discriminate.
  - left; exists b1; split; [reflexivity | now apply Z.ltb_lt].
  - right; exists b1, [b2]; bool_to_prop; repeat split; simpl; auto; lia.
  - right; exists b1, [b2; b3]; bool_to_prop;
      repeat split; simpl; repeat constructor; lia.
  - right; exists b1, [b2; b3; b4]; bool_to_prop;
      repeat split; simpl; repeat constructor; lia.
Qed.

Lemma ValidString_cons : forall b1 t1,
  ValidString (b1 :: t1) =
  valid_rune [b1] && ValidString t1
  || match t1 with
     | [] => false
     | b2 :: t2 =>
         valid_rune [b1; b2] && ValidString t2
         || match t2 with
            | [] => false
            | b3 :: t3 =>
                valid_rune [b1; b2; b3] && ValidString t3
                || match t3 with
                   | [] => false
                   | b4 :: t4 => valid_rune [b1; b2; b3; b4] && ValidString t4
                   end
            end
     end.
Proof. reflexivity. Qed.

Definition runes_ok (rs : list (list byte)) : Prop :=
  Forall (fun r => valid_rune r = true) rs.

Lemma ValidString_app_rune : forall r t,
  valid_rune r = true -> ValidString t = true -> ValidString (r ++ t) = true.
Proof.
  intros r t Hr Ht.
  destruct r as [|b1 [|b2 [|b3 [|b4 [|b5 r]]]]]; try discriminate; simpl app;
    rewrite ValidString_cons; cbv beta iota; rewrite Hr, Ht;
    repeat rewrite orb_true_r; reflexivity.
Qed.

Lemma ValidString_of_runes : forall rs, runes_ok rs -> ValidString (concat rs) = true.
Proof.
  induction 1 as [|r rs Hr _ IH]; [reflexivity|].
  simpl; now apply ValidString_app_rune.
Qed.

Lemma runes_of_ValidString : forall s, ValidString s = true ->
  exists rs, runes_ok rs /\ s = concat rs.
Proof.
  intros s; remember (length s) as n eqn:Hn.
  revert s Hn; induction n as [n IH] using (well_founded_induction lt_wf).
  intros s Hn H.
  destruct s as [|b1 t1]; [exists []; split; [constructor | reflexivity]|].
  rewrite ValidString_cons in H.
  apply orb_prop in H; destruct H as [H | H].
  { apply andb_prop in H; destruct H as [Hr Ht].
    destruct (IH (length t1) ltac:(simpl in Hn; lia) t1 eq_refl Ht) as [rs [Hrs ->]].
    exists ([b1] :: rs); split; [constructor; assumption | reflexivity]. }
  destruct t1 as [|b2 t2]; [discriminate|].
  apply orb_prop in H; destruct H as [H | H].
  { apply andb_prop in H; destruct H as [Hr Ht].
    destruct (IH (length t2) ltac:(simpl in Hn; lia) t2 eq_refl Ht) as [rs [Hrs ->]].
    exists ([b1; b2] :: rs); split; [constructor; assumption | reflexivity]. }
  destruct t2 as [|b3 t3]; [discriminate|].
  apply orb_prop in H; destruct H as [H | H].
  { apply andb_prop in H; destruct H as [Hr Ht].
    destruct (IH (length t3) ltac:(simpl in Hn; lia) t3 eq_refl Ht) as [rs [Hrs ->]].
    exists ([b1; b2; b3] :: rs); split; [constructor; assumption | reflexivity]. }
  destruct t3 as [|b4 t4]; [discriminate|].
  apply andb_prop in H; destruct H as [Hr Ht].
  destruct (IH (length t4) ltac:(simpl in Hn; lia) t4 eq_refl Ht) as [rs [Hrs ->]].
  exists ([b1; b2; b3; b4] :: rs); split; [constructor; assumption | reflexivity].
Qed.

(** ** The backward walk of splitText *)

Lemma rune_lead : forall r, valid_rune r = true ->
  exists b cs, r = b :: cs /\ RuneStart b = true /\
    Forall (fun c => RuneStart c = false) cs /\ (length cs <= 3)%nat.
Proof.
  intros r H; destruct (rune_shape r H) as [[b [-> Hb]] | [b [cs [-> [Hb [Hcs Hl]]]]]].
  - exists b, []; repeat split; auto using lead_start; simpl; lia.
  - exists b, cs; repeat split; auto using lead_start; try lia.
    eapply Forall_impl; [|exact Hcs]; intros c Hc; now apply cont_not_start.
Qed.

(** In a sequence of runes, every index [m] has a rune boundary [k] at most
    three bytes before it: the byte at [k] is a rune start and the bytes in
    [(k, m]] are not. *)
Lemma split_point : forall rs m, runes_ok rs -> (m < length (concat rs))%nat ->
  exists rs1 rs2, rs = rs1 ++ rs2 /\
    (length (concat rs1) <= m <= length (concat rs1) + 3)%nat /\
    (exists b, nth_error (concat rs) (length (concat rs1)) = Some b /\ RuneStart b = true) /\
    (forall j b, (length (concat rs1) < j <= m)%nat ->
       nth_error (concat rs) j = Some b -> RuneStart b = false).
Proof.
  induction rs as [|r rs IH]; intros m Hok Hm; [simpl in Hm; lia|].
  inversion Hok as [|? ? Hr Hrs]; subst.
  destruct (rune_lead r Hr) as [b [cs [-> [Hb [Hcs Hl]]]]].
  destruct (Nat.lt_ge_cases m (length (b :: cs))) as [Hlt | Hge].
  - exists [], ((b :: cs) :: rs); simpl in *; repeat split; try lia.
    + exists b; split; [reflexivity | exact Hb].
    + intros j b' Hj Hnth. destruct j as [|j]; [lia|]. simpl in Hnth.
      rewrite nth_error_app1 in Hnth by lia.
      rewrite Forall_forall in Hcs. apply Hcs. eapply nth_error_In; exact Hnth.
  - simpl in Hm, Hge. rewrite length_app in Hm.
    destruct (IH (m - S (length cs))%nat Hrs ltac:(lia))
      as [rs1 [rs2 [-> [Hk [[b1 [Hb1 Hs1]] Hj]]]]].
    exists ((b :: cs) :: rs1), rs2; simpl concat.
    simpl length; rewrite ?length_app; simpl length; repeat split; try lia.
    + exists b1; split; [|exact Hs1].
      simpl nth_error. rewrite nth_error_app2 by lia.
      replace (length cs + length (concat rs1) - length cs)%nat
        with (length (concat rs1)) by lia.
      exact Hb1.
    + intros j b' Hjr Hnth.
      destruct j as [|j]; [lia|]. simpl in Hnth.
      rewrite nth_error_app2 in Hnth by lia.
      apply (Hj (j - length cs)%nat); [lia | exact Hnth].
Qed.

Lemma walk_back_n_spec : forall s k n,
  (k <= n)%nat -> (n < length s)%nat ->
  (exists b, nth_error s k = Some b /\ RuneStart b = true) ->
  (forall j b, (k < j <= n)%nat -> nth_error s j = Some b -> RuneStart b = false) ->
  walk_back_n s n = Some k.
Proof.
  intros s k n; induction n as [|n IH]; intros Hkn Hn [b [Hb Hs]] Hj.
  - assert (k = 0%nat) by lia; subst. cbn [walk_back_n]. now rewrite Hb, Hs.
  - cbn [walk_back_n]. destruct (nth_error s (S n)) as [b'|] eqn:Hb'.
    2: { apply nth_error_None in Hb'; lia. }
    destruct (Nat.eq_dec k (S n)) as [->|Hne].
    + rewrite Hb in Hb'; injection Hb' as <-; now rewrite Hs.
    + rewrite (Hj (S n) b') by (auto; lia).
      apply IH; [lia | lia | exists b; auto | intros j b'' Hj' ; apply Hj; lia].
Qed.

(** ** Slicing *)

Lemma slice_nat : forall {A} (s : list A) n k, (n <= k <= length s)%nat ->
  slice s (Z.of_nat n) (Z.of_nat k) = Some (firstn (k - n) (skipn n s)).
Proof.
  intros A s n k H; unfold slice.
  rewrite (proj2 (Z.leb_le 0 (Z.of_nat n))), (proj2 (Z.leb_le (Z.of_nat n) (Z.of_nat k))),
    (proj2 (Z.leb_le (Z.of_nat k) (Z.of_nat (length s)))) by lia.
  simpl; rewrite Nat2Z.id; replace (Z.to_nat (Z.of_nat k - Z.of_nat n)) with (k - n)%nat by lia; reflexivity.
Qed.

Lemma firstn_app_length : forall {A} (l1 l2 : list A), firstn (length l1) (l1 ++ l2) = l1.
Proof. intros A l1 l2; rewrite firstn_app, Nat.sub_diag, firstn_all; apply app_nil_r. Qed.

Lemma skipn_app_length : forall {A} (l1 l2 : list A), skipn (length l1) (l1 ++ l2) = l2.
Proof. intros A l1 l2; rewrite skipn_app, Nat.sub_diag, skipn_all; reflexivity. Qed.

(** ** The loop of splitText on valid UTF-8 *)

Section SplitValid.

Variable s : list byte.
Variable m : Z.
Hypothesis Hm : 4 <= m.

(** Invariant of the loop: the left index [n] is a rune boundary and
    [r = n + maxLen].  Each iteration cuts one chunk of valid runes of
    length in [[maxLen - 3, maxLen]]; the last chunk is the rest. *)
Lemma split_loop_valid : forall fuel n acc,
  (n <= length s)%nat -> (length s - n < fuel)%nat ->
  ValidString (skipn n s) = true ->
  exists body last,
    split_loop fuel s m (Z.of_nat n) (Z.of_nat n + m) acc = Ok (acc ++ body ++ [last]) /\
    concat body ++ last = skipn n s /\
    Forall (fun c => ValidString c = true /\ m - 3 <= Z.of_nat (length c) <= m) body /\
    ValidString last = true /\
    ((n < length s)%nat -> last <> []).
Proof.
  induction fuel as [|f IH]; intros n acc Hn Hf Hv; [lia|].
  cbn [split_loop].
  destruct (Z.of_nat n + m <? Z.of_nat (length s)) eqn:Hlt.
  - apply Z.ltb_lt in Hlt.
    destruct (runes_of_ValidString _ Hv) as [rs [Hrs Hcat]].
    assert (Hm' : (Z.to_nat m < length (concat rs))%nat)
      by (rewrite <- Hcat, length_skipn; lia).
    destruct (split_point rs (Z.to_nat m) Hrs Hm')
      as [rs1 [rs2 [Hsplit [Hk [Hstart Hcont]]]]].
    rewrite Hsplit, concat_app in Hcat, Hstart, Hcont.
    set (k := length (concat rs1)) in *.
    assert (Hwalk : walk_back s (Z.of_nat n + m) = Some (Z.of_nat (n + k))).
    { unfold walk_back. rewrite (proj2 (Z.ltb_ge _ _)) by lia.
      replace (Z.to_nat (Z.of_nat n + m)) with (n + Z.to_nat m)%nat by lia.
      rewrite (walk_back_n_spec s (n + k) (n + Z.to_nat m)); [reflexivity | lia | lia | |].
      - destruct Hstart as [b [Hb Hs]]; exists b; split; [|exact Hs].
        rewrite <- nth_error_skipn, Hcat; exact Hb.
      - intros j b Hj Hb. apply (Hcont (j - n)%nat); [lia|].
        rewrite <- Hcat, nth_error_skipn. replace (n + (j - n))%nat with j by lia.
        exact Hb. }
    assert (Hlen : (k + length (concat rs2) = length s - n)%nat)
      by (rewrite <- (length_skipn n s), Hcat, length_app; reflexivity).
    rewrite Hwalk, slice_nat by lia.
    replace (n + k - n)%nat with k by lia.
    rewrite Hcat; unfold k; rewrite firstn_app_length; fold k.
    assert (Hv' : ValidString (skipn (n + k) s) = true).
    { rewrite Nat.add_comm, <- skipn_skipn, Hcat; unfold k; rewrite skipn_app_length.
      apply ValidString_of_runes. rewrite Hsplit in Hrs.
      apply Forall_app in Hrs; apply Hrs. }
    destruct (IH (n + k)%nat (acc ++ [concat rs1]) ltac:(lia) ltac:(lia) Hv')
      as [body [last [Hrun [Hc [Hb [Hl Hne]]]]]].
    exists (concat rs1 :: body), last.
    rewrite Hrun, <- app_assoc; split; [reflexivity|].
    repeat split.
    + simpl. rewrite <- app_assoc, Hc; f_equal.
      rewrite Nat.add_comm, <- skipn_skipn, Hcat; unfold k; apply skipn_app_length.
    + constructor; [|exact Hb]. split.
      * apply ValidString_of_runes. rewrite Hsplit in Hrs.
        apply Forall_app in Hrs; apply Hrs.
      * fold k; lia.
    + exact Hl.
    + intros _. apply Hne. lia.
  - apply Z.ltb_ge in Hlt.
    rewrite slice_nat by lia.
    rewrite firstn_all2 by (rewrite length_skipn; lia).
    exists [], (skipn n s); repeat split; auto.
    intros Hns Hnil. apply (f_equal (@length byte)) in Hnil.
    rewrite length_skipn in Hnil; simpl in Hnil; lia.
Qed.

End SplitValid.

Lemma split_loop_det : forall f1 f2 s m l r acc v1 v2,
  split_loop f1 s m l r acc = Ok v1 -> split_loop f2 s m l r acc = Ok v2 -> v1 = v2.
Proof.
  induction f1 as [|f1 IH]; intros f2 s m l r acc v1 v2 H1 H2; [discriminate|].
  destruct f2 as [|f2]; [discriminate|].
  cbn [split_loop] in H1, H2.
  destruct (r <? Z.of_nat (length s)).
  - destruct (walk_back s r) as [r'|]; [|discriminate].
    destruct (slice s l r') as [c|]; [|discriminate].
    eapply IH; eassumption.
  - destruct (slice s l (Z.of_nat (length s))); [|discriminate].
    congruence.
Qed.

(** ** Escaping *)

Lemma flat_map_flat_map : forall {A B C} (f : A -> list B) (g : B -> list C) l,
  flat_map g (flat_map f l) = flat_map (fun x => flat_map g (f x)) l.
Proof.
  intros A B C f g l; induction l as [|x l IH]; [reflexivity|].
  simpl; rewrite flat_map_app, IH; reflexivity.
Qed.

Lemma escape_flat_map : forall text, escape text = flat_map esc_byte text.
Proof.
  intros text; unfold escape, patterns; simpl fold_left; unfold Replace.
  rewrite !flat_map_flat_map. apply flat_map_ext.
  intros b; destruct b; reflexivity.
Qed.

Lemma unescape_esc_byte : forall b t, unescape (esc_byte b ++ t) = b :: unescape t.
Proof. intros b t; destruct t; destruct b; reflexivity. Qed.

Lemma unescape_escape : forall text, unescape (escape text) = text.
Proof.
  intros text; rewrite escape_flat_map.
  induction text as [|b text IH]; [reflexivity|].
  simpl; rewrite unescape_esc_byte, IH; reflexivity.
Qed.

Lemma ValidString_app : forall a b,
  ValidString a = true -> ValidString b = true -> ValidString (a ++ b) = true.
Proof.
  intros a b Ha Hb.
  destruct (runes_of_ValidString a Ha) as [ra [Hra ->]].
  destruct (runes_of_ValidString b Hb) as [rb [Hrb ->]].
  rewrite <- concat_app; apply ValidString_of_runes, Forall_app; auto.
Qed.

Lemma esc_byte_ascii : forall b, bz b < 0x80 -> ValidString (esc_byte b ++ []) = true.
Proof. intros b H; destruct b; unfold bz in H; simpl in H; first [reflexivity | lia]. Qed.

Lemma esc_byte_high : forall b, 0x80 <= bz b -> esc_byte b = [b].
Proof. intros b H; destruct b; unfold bz in H; simpl in H; first [reflexivity | lia]. Qed.

Lemma flat_map_single : forall {A} (f : A -> list A) l,
  Forall (fun x => f x = [x]) l -> flat_map f l = l.
Proof. intros A f l; induction 1 as [|x l Hx _ IH]; [reflexivity|]; simpl; rewrite Hx, IH; reflexivity. Qed.

(** Escaping only rewrites ASCII bytes into ASCII bytes: it keeps a string
    valid UTF-8. *)
Lemma escape_valid : forall text, ValidString text = true -> ValidString (escape text) = true.
Proof.
  intros text H; rewrite escape_flat_map.
  destruct (runes_of_ValidString text H) as [rs [Hrs ->]]; clear H.
  induction Hrs as [|r rs Hr _ IH]; [reflexivity|].
  simpl; rewrite flat_map_app; apply ValidString_app; [|exact IH].
  destruct (rune_shape r Hr) as [[b [-> Hb]] | [b [cs [-> [Hb [Hcs _]]]]]].
  - simpl; now apply esc_byte_ascii.
  - rewrite flat_map_single; [now rewrite <- (app_nil_r (b :: cs)); apply ValidString_app_rune|].
    constructor; [apply esc_byte_high; lia|].
    eapply Forall_impl; [|exact Hcs]; intros c Hc; cbv beta in Hc; apply esc_byte_high; lia.
Qed.

(** ** splitText: totality and round trip on valid UTF-8 *)

Lemma splitText_valid_run : forall s m, ValidString s = true -> 4 <= m ->
  exists body last,
    (forall fuel, (length s < fuel)%nat -> splitText_fuel fuel s m = Ok (body ++ [last])) /\
    concat body ++ last = s /\
    Forall (fun c => ValidString c = true /\ m - 3 <= Z.of_nat (length c) <= m) body /\
    ValidString last = true /\
    (s <> [] -> last <> []).
Proof.
  intros s m Hv Hm.
  assert (Hrun : forall fuel, (length s < fuel)%nat -> exists body last,
    split_loop fuel s m (Z.of_nat 0) (Z.of_nat 0 + m) [] = Ok ([] ++ body ++ [last]) /\
    concat body ++ last = skipn 0 s /\
    Forall (fun c => ValidString c = true /\ m - 3 <= Z.of_nat (length c) <= m) body /\
    ValidString last = true /\
    ((0 < length s)%nat -> last <> [])).
  { intros fuel Hf; apply split_loop_valid; auto; lia. }
  destruct (Hrun (S (length s)) ltac:(lia)) as [body [last [H1 [H2 [H3 [H4 H5]]]]]].
  exists body, last; repeat split; auto.
  - intros fuel Hf. destruct (Hrun fuel Hf) as [body' [last' [H1' _]]].
    unfold splitText_fuel. simpl Z.of_nat in H1, H1'. rewrite Z.add_0_l in H1, H1'.
    rewrite H1'. f_equal. eapply split_loop_det; eassumption.
  - intros Hne; apply H5. destruct s; [congruence | simpl; lia].
Qed.

Lemma split_smiley_3 : forall fuel acc, split_loop fuel smiley 3 0 3 acc = Diverge.
Proof.
  induction fuel as [|f IH]; intros acc; [reflexivity|].
  change (split_loop (S f) smiley 3 0 3 acc) with (split_loop f smiley 3 0 3 (acc ++ [[]])).
  apply IH.
Qed.

(** ** Claims on the line codec *)

(** C1 (amended): for every valid UTF-8 text and every [maxLen >= 4],
    [splitText] returns, and its chunks concatenate to the text, each chunk
    valid UTF-8 (no boundary inside a rune); the same holds for the escaped
    text that [Push] splits, and unescaping the concatenation of its chunks
    gives back the original text. *)
Theorem splitText_roundtrip_valid : forall text maxLen,
  ValidString text = true -> 4 <= maxLen ->
  (exists chunks, splitText text maxLen = Ok chunks /\ concat chunks = text /\
     Forall (fun c => ValidString c = true) chunks) /\
  (exists chunks, splitText (escape text) maxLen = Ok chunks /\
     unescape (concat chunks) = text /\ Forall (fun c => ValidString c = true) chunks).
Proof.
  intros text maxLen Hv Hm.
  assert (Hgen : forall s, ValidString s = true -> exists chunks,
    splitText s maxLen = Ok chunks /\ concat chunks = s /\
    Forall (fun c => ValidString c = true) chunks).
  { intros s Hs.
    destruct (splitText_valid_run s maxLen Hs Hm) as [body [last [Hr [Hc [Hb [Hl _]]]]]].
    exists (body ++ [last]); repeat split.
    - apply Hr; lia.
    - rewrite concat_app; simpl; rewrite app_nil_r; exact Hc.
    - apply Forall_app; split; [|constructor; auto].
      eapply Forall_impl; [|exact Hb]; intros c [Hc' _]; exact Hc'. }
  split; [now apply Hgen|].
  destruct (Hgen (escape text) (escape_valid text Hv)) as [chunks [H1 [H2 H3]]].
  exists chunks; repeat split; auto.
  rewrite H2; apply unescape_escape.
Qed.

Lemma splitText_roundtrip_valid_witness :
  ValidString sample = true /\ 4 <= 4 /\
  ((exists chunks, splitText sample 4 = Ok chunks /\ concat chunks = sample /\
      Forall (fun c => ValidString c = true) chunks) /\
   (exists chunks, splitText (escape sample) 4 = Ok chunks /\
      unescape (concat chunks) = sample /\ Forall (fun c => ValidString c = true) chunks)).
Proof.
  split; [reflexivity|]. split; [lia|].
  apply (splitText_roundtrip_valid sample 4); [reflexivity | lia].
Defined.

(** C1 counterexample: on a text that is not valid UTF-8 (five
    continuation bytes, which escaping leaves alone), [splitText] with
    [maxLen = 4] walks back past index 0 and panics: no chunks come out,
    neither for the text nor for its escaped form. *)
Lemma splitText_panics_on_invalid_utf8 :
  escape bad_utf8 = bad_utf8 /\
  splitText bad_utf8 4 = Panic /\
  ~ (exists chunks, splitText bad_utf8 4 = Ok chunks /\ concat chunks = bad_utf8).
Proof.
  split; [reflexivity|]. split; [reflexivity|].
  intros [chunks [H _]]; discriminate H.
Qed.

(** C6: [Push] escapes its text by three replacements applied in order:
    backslash to two backslashes, then newline to backslash-n, then double
    quote to backslash-double-quote; the net effect is one escape per
    reserved byte, and line1-newline-line2 and a quoted hi encode as
    line1-backslash-n-line2 and backslash-quote-hi-backslash-quote. *)
Theorem push_escape_in_order : forall text,
  escape text = Replace (Replace (Replace text x5c [x5c; x5c]) x0a [x5c; x6e]) x22 [x5c; x22] /\
  escape text = flat_map esc_byte text /\
  escape line1_nl_line2 = line1_esc_line2 /\
  escape quoted_hi = quoted_hi_esc.
Proof.
  intros text; split; [reflexivity|]. split; [apply escape_flat_map|].
  split; reflexivity.
Qed.

(** C10 (amended): for every valid UTF-8 string and every [maxLen >= 4],
    [splitText] terminates without indexing out of range, with the same
    chunks for any fuel above the length; every chunk cut at a split point
    has between [maxLen - 3] and [maxLen] bytes (the walk back moves at
    most 3 bytes, so it is non-empty and the left index strictly grows);
    the final chunk is the rest of the string, empty only for the empty
    string.  Both preconditions are needed: invalid UTF-8 panics, and
    [maxLen = 3] loops forever on a 4-byte rune. *)
Theorem splitText_terminates_valid : forall s maxLen,
  ValidString s = true -> 4 <= maxLen ->
  (exists body last,
    (forall fuel, (length s < fuel)%nat -> splitText_fuel fuel s maxLen = Ok (body ++ [last])) /\
    concat body ++ last = s /\
    Forall (fun c => c <> [] /\ maxLen - 3 <= Z.of_nat (length c) <= maxLen) body /\
    (s <> [] -> last <> [])) /\
  splitText bad_utf8 4 = Panic /\
  (forall fuel, splitText_fuel fuel smiley 3 = Diverge).
Proof.
  intros s maxLen Hv Hm.
  split; [|split; [reflexivity | intros fuel; apply split_smiley_3]].
  destruct (splitText_valid_run s maxLen Hv Hm) as [body [last [Hr [Hc [Hb [_ Hl]]]]]].
  exists body, last; repeat split; auto.
  eapply Forall_impl; [|exact Hb]; intros c [_ Hlen]; split; [|exact Hlen].
  intros ->; simpl in Hlen; lia.
Qed.

Lemma splitText_terminates_valid_witness :
  ValidString sample = true /\ 4 <= 4 /\
  ((exists body last,
     (forall fuel, (length sample < fuel)%nat ->
        splitText_fuel fuel sample 4 = Ok (body ++ [last])) /\
     concat body ++ last = sample /\
     Forall (fun c => c <> [] /\ 4 - 3 <= Z.of_nat (length c) <= 4) body /\
     (sample <> [] -> last <> [])) /\
   splitText bad_utf8 4 = Panic /\
   (forall fuel, splitText_fuel fuel smiley 3 = Diverge)).
Proof.
  split; [reflexivity|]. split; [lia|].
  apply (splitText_terminates_valid sample 4); [reflexivity | lia].
Defined.

(** C10 counterexample: the empty string is valid UTF-8, and [splitText]
    emits one chunk for it, the empty one. *)
Lemma splitText_empty_chunk :
  ValidString [] = true /\ splitText [] 4 = Ok [[]] /\
  ~ (forall chunks, splitText [] 4 = Ok chunks -> Forall (fun c => c <> []) chunks).
Proof.
  split; [reflexivity|]. split; [reflexivity|].
  intros H. specialize (H [[]] eq_refl). inversion H as [|? ? Hne _]; now apply Hne.
Qed.

(** ** The partitioner *)

Lemma wrap64_id : forall z, min_int <= z <= max_int -> wrap64 z = z.
Proof.
  intros z H; unfold wrap64, min_int, max_int in *.
  rewrite Z.mod_small by lia; lia.
Qed.

Lemma firstn_min_length : forall {A} k (l : list A), firstn (Nat.min k (length l)) l = firstn k l.
Proof.
  intros A k l; destruct (Nat.le_ge_cases k (length l)).
  - rewrite Nat.min_l by lia; reflexivity.
  - rewrite Nat.min_r, firstn_all, firstn_all2 by lia; reflexivity.
Qed.

(** With a positive [chunkSize], the loop cuts the rest of the records from
    index [i] into consecutive non-empty slices of at most [chunkSize]. *)
Lemma divide_loop_ok : forall records cs, 1 <= cs -> forall fuel i acc,
  (length records - i < fuel)%nat ->
  exists parts,
    divide_loop fuel records cs (Z.of_nat i) acc = Ok (acc ++ parts) /\
    concat parts = skipn i records /\
    Forall (fun part => part <> [] /\ (length part <= Z.to_nat cs)%nat) parts.
Proof.
  intros records cs Hcs fuel; induction fuel as [|f IH]; intros i acc Hf; [lia|].
  cbn [divide_loop].
  destruct (Z.of_nat i <? Z.of_nat (length records)) eqn:Hlt.
  - apply Z.ltb_lt in Hlt.
    set (k := Z.to_nat cs).
    set (e := Nat.min k (length records - i)).
    assert (Hend : (if Z.of_nat i + cs >? Z.of_nat (length records)
                    then Z.of_nat (length records) else Z.of_nat i + cs)
                   = Z.of_nat (i + e)).
    { unfold e, k; destruct (Z.of_nat i + cs >? Z.of_nat (length records)) eqn:Hg.
      - apply Z.gtb_lt in Hg; lia.
      - rewrite Z.gtb_ltb in Hg; apply Z.ltb_ge in Hg; lia. }
    rewrite Hend, slice_nat by lia.
    replace (i + e - i)%nat with e by lia.
    replace (Z.of_nat i + cs) with (Z.of_nat (i + k)) by (unfold k; lia).
    destruct (IH (i + k)%nat (acc ++ [firstn e (skipn i records)]) ltac:(lia))
      as [parts [Hrun [Hcat Hall]]].
    exists (firstn e (skipn i records) :: parts); split; [rewrite Hrun, <- app_assoc; reflexivity|].
    assert (He : firstn e (skipn i records) = firstn k (skipn i records))
      by (unfold e; rewrite <- length_skipn; apply firstn_min_length).
    split.
    + simpl; rewrite Hcat, He, Nat.add_comm, <- skipn_skipn; apply firstn_skipn.
    + constructor; [|exact Hall]. split.
      * intros Hnil. apply (f_equal (@length _)) in Hnil.
        rewrite length_firstn, length_skipn in Hnil; simpl in Hnil; unfold e, k in *; lia.
      * rewrite length_firstn; unfold e; lia.
  - apply Z.ltb_ge in Hlt.
    exists []; rewrite app_nil_r; repeat split; auto.
    rewrite skipn_all2 by lia; reflexivity.
Qed.

(** For [p >= 1] without overflow of [len(records) + p - 1], [chunkSize] is
    the ceiling of [len(records) / p]. *)
Lemma chunkSize_ceil : forall n p, 1 <= p -> n + p - 1 <= max_int -> 0 <= n ->
  wrap64 (Z.quot (wrap64 (n + p - 1)) p) = (n + p - 1) / p.
Proof.
  intros n p Hp Hmax Hn.
  rewrite (wrap64_id (n + p - 1)) by (unfold min_int, max_int in *; lia).
  rewrite Z.quot_div_nonneg by lia.
  apply wrap64_id. split.
  - apply Z.le_trans with 0; [unfold min_int; lia | apply Z.div_pos; lia].
  - apply Z.le_trans with (n + p - 1); [|exact Hmax].
    apply Z.div_le_upper_bound; nia.
Qed.

Lemma divide_ok : forall records p, 1 <= p -> Z.of_nat (length records) + p - 1 <= max_int ->
  exists divided,
    divideIngestBulkRecords records p = Ok divided /\
    concat divided = records /\
    Forall (fun part => part <> [] /\
             (Z.of_nat (length part) <= (Z.of_nat (length records) + p - 1) / p)) divided.
Proof.
  intros records p Hp Hmax.
  unfold divideIngestBulkRecords.
  rewrite (proj2 (Z.eqb_neq p 0)) by lia.
  rewrite chunkSize_ceil by lia.
  destruct records as [|r rs].
  - exists []; split; [reflexivity | split; [reflexivity | constructor]].
  - set (n := length (r :: rs)) in *.
    assert (Hcs : 1 <= (Z.of_nat n + p - 1) / p)
      by (apply Z.div_le_lower_bound; unfold n in *; simpl length in *; lia).
    destruct (divide_loop_ok (r :: rs) _ Hcs (S n) 0 [] ltac:(lia))
      as [parts [Hrun [Hcat Hall]]].
    exists parts; split; [exact Hrun|]. split; [exact Hcat|].
    eapply Forall_impl; [|exact Hall]; intros part [Hne Hl]; split; [exact Hne|].
    apply Nat2Z.inj_le in Hl. rewrite Z2Nat.id in Hl by lia. exact Hl.
Qed.

Lemma singletons : forall {A} (parts : list (list A)),
  Forall (fun part => part <> [] /\ Z.of_nat (length part) <= 1) parts ->
  parts = map (fun r => [r]) (concat parts).
Proof.
  intros A parts; induction 1 as [|part parts [Hne Hl] _ IH]; [reflexivity|].
  destruct part as [|x [|y rest]]; [congruence | | simpl in Hl; lia].
  simpl; f_equal; exact IH.
Qed.

Lemma divide_nil : forall p, divideIngestBulkRecords [] (clamp p) = Ok [].
Proof.
  intros p; unfold divideIngestBulkRecords.
  rewrite (proj2 (Z.eqb_neq (clamp p) 0)) by (unfold clamp; destruct (p <=? 0) eqn:E;
    [lia | apply Z.leb_gt in E; lia]).
  reflexivity.
Qed.

Lemma divide_one : forall records, records <> [] ->
  Z.of_nat (length records) <= max_int ->
  divideIngestBulkRecords records 1 = Ok [records].
Proof.
  intros records Hne Hmax; unfold divideIngestBulkRecords.
  rewrite chunkSize_ceil by lia. simpl (1 =? 0); cbv iota.
  replace ((Z.of_nat (length records) + 1 - 1) / 1) with (Z.of_nat (length records))
    by (rewrite Z.div_1_r; lia).
  remember (length records) as n eqn:Hn.
  destruct n as [|n]; [destruct records; simpl in Hn; congruence|].
  cbn [divide_loop]; rewrite <- Hn.
  rewrite (proj2 (Z.ltb_lt 0 (Z.of_nat (S n)))) by lia.
  rewrite !Z.add_0_l, Z.gtb_ltb, Z.ltb_irrefl.
  change 0 with (Z.of_nat 0); rewrite slice_nat by lia.
  simpl skipn; rewrite Nat.sub_0_r, Hn, firstn_all; reflexivity.
Qed.

(** ** Claims on the partitioner *)

(** C2: for every record list and every effective parallelism [p >= 1]
    (in particular every [p] in [[1, len(records)]], and every larger [p]
    for which [len(records) + p - 1] does not overflow), the partitions
    are non-empty contiguous slices whose concatenation is the record list:
    their lengths sum to [len(records)], each record lies in exactly one
    of them, and their order is the input order. *)
Theorem divide_partitions_cover : forall records p,
  1 <= p -> Z.of_nat (length records) + p - 1 <= max_int ->
  exists divided,
    divideIngestBulkRecords records p = Ok divided /\
    concat divided = records /\
    list_sum (map (@length _) divided) = length records /\
    Forall (fun part => part <> []) divided.
Proof.
  intros records p Hp Hmax.
  destruct (divide_ok records p Hp Hmax) as [divided [Hrun [Hcat Hall]]].
  exists divided; repeat split; auto.
  - rewrite <- length_concat, Hcat; reflexivity.
  - eapply Forall_impl; [|exact Hall]; intros part [Hne _]; exact Hne.
Qed.

Lemma divide_partitions_cover_witness :
  1 <= 2 /\ Z.of_nat (length five_records) + 2 - 1 <= max_int /\
  exists divided,
    divideIngestBulkRecords five_records 2 = Ok divided /\
    concat divided = five_records /\
    list_sum (map (@length _) divided) = length five_records /\
    Forall (fun part => part <> []) divided.
Proof.
  split; [lia|]. split; [unfold max_int; simpl; lia|].
  apply (divide_partitions_cover five_records 2); [lia | unfold max_int; simpl; lia].
Defined.

(** C3 (amended): with a non-empty record list, a requested parallelism
    [p <= 0] gives exactly one partition (all the records), and
    [p > len(records)] gives exactly [len(records)] partitions of one record
    each, so no partition is empty; this holds whenever
    [len(records) + p - 1] does not overflow [int].  With no records there
    is no partition, whatever [p]. *)
Theorem bulk_parallelism_clamped : forall records p,
  Z.of_nat (length records) + clamp p - 1 <= max_int ->
  (records <> [] -> p <= 0 -> divideIngestBulkRecords records (clamp p) = Ok [records]) /\
  (Z.of_nat (length records) < p ->
     divideIngestBulkRecords records (clamp p) = Ok (map (fun r => [r]) records)) /\
  (records = [] -> divideIngestBulkRecords records (clamp p) = Ok []).
Proof.
  intros records p Hmax. repeat split.
  - intros Hne Hp. unfold clamp in *.
    destruct (p <=? 0) eqn:E; [|apply Z.leb_gt in E; lia].
    apply divide_one; [exact Hne | lia].
  - intros Hp. unfold clamp in *.
    destruct (p <=? 0) eqn:E; [apply Z.leb_le in E; lia|].
    destruct (divide_ok records p ltac:(lia) Hmax) as [divided [Hrun [Hcat Hall]]].
    rewrite Hrun, (singletons divided), Hcat; [reflexivity|].
    eapply Forall_impl; [|exact Hall]; intros part [Hne Hl]; split; [exact Hne|].
    apply Z.le_trans with (1 := Hl).
    enough ((Z.of_nat (length records) + p - 1) / p < 2) by lia.
    apply Z.div_lt_upper_bound; lia.
  - intros ->; apply divide_nil.
Qed.

Lemma bulk_parallelism_clamped_witness :
  Z.of_nat (length five_records) + clamp 0 - 1 <= max_int /\
  ((five_records <> [] -> 0 <= 0 ->
      divideIngestBulkRecords five_records (clamp 0) = Ok [five_records]) /\
   (Z.of_nat (length five_records) < 0 ->
      divideIngestBulkRecords five_records (clamp 0) = Ok (map (fun r => [r]) five_records)) /\
   (five_records = [] -> divideIngestBulkRecords five_records (clamp 0) = Ok [])).
Proof.
  split; [unfold max_int; simpl; lia|].
  apply (bulk_parallelism_clamped five_records 0); unfold max_int; simpl; lia.
Defined.

(** C3 counterexample: with no records and [p = 0], no partition and no
    worker at all, not one. *)
Lemma bulk_parallelism_empty_zero_workers :
  divideIngestBulkRecords [] (clamp 0) = Ok [] /\
  BulkPush_workers env_down [] [] 0 [] = Ok [] /\
  ~ (exists divided, divideIngestBulkRecords [] (clamp 0) = Ok divided /\ length divided = 1%nat).
Proof.
  split; [reflexivity|]. split; [reflexivity|].
  intros [divided [H Hl]]. injection H as <-. discriminate Hl.
Qed.

(** For [p] near the top of [int], [len(records) + p - 1] wraps to a
    negative number: two records with [p = MaxInt64] give
    [chunkSize = -1] and the slice [records[0:-1]] panics. *)
Lemma divide_overflow_panics :
  clamp max_int = max_int /\
  divideIngestBulkRecords [rec_of x41; rec_of x42] max_int = Panic.
Proof. split; reflexivity. Qed.

(** C7: on five records with [p = 4], [chunkSize = 2] and the partitioner
    returns three partitions, not four. *)
Lemma divide_five_by_four :
  divideIngestBulkRecords five_records 4 =
    Ok [[rec_of x41; rec_of x42]; [rec_of x43; rec_of x44]; [rec_of x45]] /\
  (forall divided, divideIngestBulkRecords five_records 4 = Ok divided ->
     length divided = 3%nat).
Proof.
  split; [reflexivity|].
  intros divided H. vm_compute in H. injection H as <-. reflexivity.
Qed.

(** ** The bulk dispatcher *)

Lemma interleaving_nil : forall {A} (errs : list A), interleaving [] errs <-> errs = [].
Proof.
  intros A errs; split.
  - intros H; inversion H as [ls Hall | ls1 x xs ls2 out _ Heq]; [reflexivity|].
    destruct ls1; discriminate Heq.
  - intros ->; constructor; constructor.
Qed.

Lemma interleaving_single : forall {A} (l out : list A), interleaving [l] out <-> out = l.
Proof.
  intros A l out; split.
  - intros H; remember [l] as ls eqn:Hls; revert l Hls.
    induction H as [ls Hall | ls1 x xs ls2 out H IH]; intros l Hls; subst.
    + inversion Hall; subst; reflexivity.
    + destruct ls1 as [|l1 ls1].
      * injection Hls as <- ->. f_equal. apply (IH xs); reflexivity.
      * injection Hls as _ Hls. destruct ls1; discriminate Hls.
  - intros ->; induction l as [|x l IH].
    + constructor; repeat constructor.
    + apply (il_step [] x l []); exact IH.
Qed.

(** C8: with an empty record list, for every requested parallelism the
    partitioner returns no partition, [BulkPush] and [BulkPop] start no
    worker, and the only list they can return is the empty one. *)
Theorem bulk_empty_records : forall env collection bucket p,
  divideIngestBulkRecords [] (clamp p) = Ok [] /\
  BulkPush_workers env collection bucket p [] = Ok [] /\
  BulkPop_workers env collection bucket p [] = Ok [] /\
  (forall errs, BulkPush_returns env collection bucket p [] errs <-> errs = []) /\
  (forall errs, BulkPop_returns env collection bucket p [] errs <-> errs = []).
Proof.
  intros env collection bucket p.
  assert (Hpush : BulkPush_workers env collection bucket p [] = Ok [])
    by (unfold BulkPush_workers; rewrite divide_nil; reflexivity).
  assert (Hpop : BulkPop_workers env collection bucket p [] = Ok [])
    by (unfold BulkPop_workers; rewrite divide_nil; reflexivity).
  split; [apply divide_nil|]. split; [exact Hpush|]. split; [exact Hpop|].
  split; intros errs; split.
  - intros [ws [H Hi]]; rewrite Hpush in H; injection H as <-.
    apply interleaving_nil; exact Hi.
  - intros ->; exists []; split; [exact Hpush | apply interleaving_nil; reflexivity].
  - intros [ws [H Hi]]; rewrite Hpop in H; injection H as <-.
    apply interleaving_nil; exact Hi.
  - intros ->; exists []; split; [exact Hpop | apply interleaving_nil; reflexivity].
Qed.

(** C4: no connection could be opened for the single worker, the write of
    record A is accepted but its acknowledgement fails: the record gets two
    RecordErrors, [ErrClosed] and the acknowledgement's error, because the
    [conn == nil] branch reports and does not [continue]. *)
Lemma bulk_push_failed_ack_two_errors :
  BulkPush_workers env_ack_fails [x63] [x62] 1 [rec_of x41] =
    Ok [[bulk_error (rec_of x41) ErrClosed; bulk_error (rec_of x41) (ErrIO 7)]] /\
  (forall errs, BulkPush_returns env_ack_fails [x63] [x62] 1 [rec_of x41] errs <->
     errs = [bulk_error (rec_of x41) ErrClosed; bulk_error (rec_of x41) (ErrIO 7)]).
Proof.
  assert (Hw : BulkPush_workers env_ack_fails [x63] [x62] 1 [rec_of x41] =
    Ok [[bulk_error (rec_of x41) ErrClosed; bulk_error (rec_of x41) (ErrIO 7)]])
    by reflexivity.
  split; [exact Hw|]. intros errs; split.
  - intros [ws [H Hi]]; rewrite Hw in H; injection H as <-.
    apply interleaving_single; exact Hi.
  - intros ->; eexists; split; [exact Hw | apply interleaving_single; reflexivity].
Qed.

(** C5: every connection attempt fails (and so does the driver connection
    that [BulkPush] pushes through): the one record gets two RecordErrors,
    [ErrClosed] and the write error, not one. *)
Lemma bulk_push_all_connections_fail :
  BulkPush_workers env_down [x63] [x62] 1 [rec_of x41] =
    Ok [[bulk_error (rec_of x41) ErrClosed; bulk_error (rec_of x41) (ErrIO 0)]] /\
  (forall errs, BulkPush_returns env_down [x63] [x62] 1 [rec_of x41] errs <->
     errs = [bulk_error (rec_of x41) ErrClosed; bulk_error (rec_of x41) (ErrIO 0)]).
Proof.
  assert (Hw : BulkPush_workers env_down [x63] [x62] 1 [rec_of x41] =
    Ok [[bulk_error (rec_of x41) ErrClosed; bulk_error (rec_of x41) (ErrIO 0)]])
    by reflexivity.
  split; [exact Hw|]. intros errs; split.
  - intros [ws [H Hi]]; rewrite Hw in H; injection H as <-.
    apply interleaving_single; exact Hi.
  - intros ->; eexists; split; [exact Hw | apply interleaving_single; reflexivity].
Qed.

(** ** Escaping: lossless and one extra byte per reserved byte *)

Lemma escape_no_newline : forall text, ~ In x0a (escape text).
Proof.
  intros text H; rewrite escape_flat_map in H.
  apply in_flat_map in H as [b [_ Hb]].
  destruct b; simpl in Hb; intuition discriminate.
Qed.

(** X1: escaping is lossless and adds exactly one backslash per reserved
    byte (backslash, newline, double quote) of the text. *)
Theorem escape_lossless : forall text,
  unescape (escape text) = text /\
  length (escape text) =
    (length text + length (filter (fun b => Byte.eqb b x5c || Byte.eqb b x0a || Byte.eqb b x22) text))%nat.
Proof.
  intros text; split; [apply unescape_escape|].
  rewrite escape_flat_map; induction text as [|b t IH]; [reflexivity|].
  simpl flat_map; rewrite length_app, IH.
  destruct b; simpl; lia.
Qed.

(** ** splitText: short strings, ASCII strings, non-positive maxLen *)

Lemma split_short : forall s maxLen, Z.of_nat (length s) <= maxLen -> splitText s maxLen = Ok [s].
Proof.
  intros s maxLen H; unfold splitText, splitText_fuel; cbn [split_loop].
  rewrite (proj2 (Z.ltb_ge _ _)) by lia.
  change 0 with (Z.of_nat 0); rewrite slice_nat by lia.
  rewrite Nat.sub_0_r, firstn_all; reflexivity.
Qed.

(** X2: when the escaped text fits in [cmdMaxBytes / 2] bytes, [Push]
    sends it as a single PUSH line, whatever its bytes (valid UTF-8 or not,
    empty included). *)
Theorem push_fits_one_line : forall env collection bucket object text,
  Z.of_nat (length (escape text)) <= Z.quot (cmdMaxBytes env) 2 ->
  Push env collection bucket object text =
    push_chunks env collection bucket object [escape text].
Proof.
  intros env collection bucket object text H; unfold Push.
  rewrite split_short by exact H; reflexivity.
Qed.

Lemma push_fits_one_line_witness :
  Z.of_nat (length (escape bad_utf8)) <= Z.quot (cmdMaxBytes env_ack_fails) 2 /\
  Push env_ack_fails [x63] [x62] [x6f] bad_utf8 =
    push_chunks env_ack_fails [x63] [x62] [x6f] [escape bad_utf8].
Proof.
  split; [vm_compute; discriminate|].
  apply push_fits_one_line. vm_compute; discriminate.
Defined.

Lemma split_loop_starts : forall s m, 1 <= m -> Forall (fun b => RuneStart b = true) s ->
  forall fuel n acc, (n <= length s)%nat -> (length s - n < fuel)%nat ->
  exists body last,
    split_loop fuel s m (Z.of_nat n) (Z.of_nat n + m) acc = Ok (acc ++ body ++ [last]) /\
    concat body ++ last = skipn n s /\
    Forall (fun c => Z.of_nat (length c) = m) body /\
    Z.of_nat (length last) <= m /\
    ((n < length s)%nat -> last <> []).
Proof.
  intros s m Hm Hs fuel; induction fuel as [|f IH]; intros n acc Hn Hf; [lia|].
  cbn [split_loop].
  destruct (Z.of_nat n + m <? Z.of_nat (length s)) eqn:Hlt.
  - apply Z.ltb_lt in Hlt.
    set (k := Z.to_nat m).
    assert (Hwalk : walk_back s (Z.of_nat n + m) = Some (Z.of_nat (n + k))).
    { unfold walk_back. rewrite (proj2 (Z.ltb_ge _ _)) by lia.
      replace (Z.to_nat (Z.of_nat n + m)) with (n + k)%nat by (unfold k; lia).
      rewrite (walk_back_n_spec s (n + k) (n + k)); [reflexivity | lia | unfold k; lia | |].
      - destruct (nth_error s (n + k)) as [b|] eqn:Hb.
        + exists b; split; [reflexivity|].
          rewrite Forall_forall in Hs; apply Hs; eapply nth_error_In; exact Hb.
        + apply nth_error_None in Hb; unfold k in Hb; lia.
      - intros j b Hj; lia. }
    rewrite Hwalk, slice_nat by (unfold k; lia).
    replace (n + k - n)%nat with k by lia.
    replace (Z.of_nat (n + k) + m) with (Z.of_nat (n + k) + m) by reflexivity.
    destruct (IH (n + k)%nat (acc ++ [firstn k (skipn n s)]) ltac:(unfold k; lia) ltac:(unfold k; lia))
      as [body [last [Hrun [Hc [Hb [Hl Hne]]]]]].
    exists (firstn k (skipn n s) :: body), last.
    rewrite Hrun, <- app_assoc; split; [reflexivity|].
    repeat split.
    + simpl. rewrite <- app_assoc, Hc, Nat.add_comm, <- skipn_skipn; apply firstn_skipn.
    + constructor; [|exact Hb].
      rewrite length_firstn, length_skipn; unfold k; lia.
    + exact Hl.
    + intros _. apply Hne. unfold k; lia.
  - apply Z.ltb_ge in Hlt.
    rewrite slice_nat by lia.
    rewrite firstn_all2 by (rewrite length_skipn; lia).
    exists [], (skipn n s); repeat split; auto.
    + rewrite length_skipn; lia.
    + intros Hns Hnil. apply (f_equal (@length byte)) in Hnil.
      rewrite length_skipn in Hnil; simpl in Hnil; lia.
Qed.

(** X3: on an ASCII string and [maxLen >= 1], [splitText] cuts fixed-size
    chunks: every chunk but the last has exactly [maxLen] bytes, the last
    one has at most [maxLen] bytes and is empty only for the empty string,
    and the chunks concatenate to the string. *)
Theorem splitText_ascii_fixed_chunks : forall s maxLen,
  Forall (fun b => bz b < 0x80) s -> 1 <= maxLen ->
  exists body last,
    splitText s maxLen = Ok (body ++ [last]) /\
    concat body ++ last = s /\
    Forall (fun c => Z.of_nat (length c) = maxLen) body /\
    Z.of_nat (length last) <= maxLen /\
    (s <> [] -> last <> []).
Proof.
  intros s maxLen Hs Hm.
  assert (Hst : Forall (fun b => RuneStart b = true) s).
  { eapply Forall_impl; [|exact Hs]; intros b Hb; apply lead_start; left; exact Hb. }
  destruct (split_loop_starts s maxLen Hm Hst (S (length s)) 0 [] ltac:(lia) ltac:(lia))
    as [body [last [Hrun [Hc [Hb [Hl Hne]]]]]].
  exists body, last; split; [exact Hrun|]. split; [exact Hc|].
  split; [exact Hb|]. split; [exact Hl|].
  intros Hnil; apply Hne; destruct s; [congruence | simpl; lia].
Qed.

Lemma splitText_ascii_fixed_chunks_witness :
  Forall (fun b => bz b < 0x80) line1_nl_line2 /\ 1 <= 4 /\
  exists body last,
    splitText line1_nl_line2 4 = Ok (body ++ [last]) /\
    concat body ++ last = line1_nl_line2 /\
    Forall (fun c => Z.of_nat (length c) = 4) body /\
    Z.of_nat (length last) <= 4 /\
    (line1_nl_line2 <> [] -> last <> []).
Proof.
  assert (H : Forall (fun b => bz b < 0x80) line1_nl_line2)
    by (repeat constructor; unfold bz; simpl; lia).
  split; [exact H|]. split; [lia|].
  apply splitText_ascii_fixed_chunks; [exact H | lia].
Defined.

Lemma split_zero_never_ok : forall b t fuel acc chunks,
  split_loop fuel (b :: t) 0 0 0 acc <> Ok chunks.
Proof.
  intros b t fuel; induction fuel as [|f IH]; intros acc chunks; [simpl; congruence|].
  cbn [split_loop]. rewrite (proj2 (Z.ltb_lt 0 (Z.of_nat (length (b :: t))))) by (simpl; lia).
  replace (walk_back (b :: t) 0) with (if RuneStart b then Some 0 else None)
    by (unfold walk_back; simpl; destruct (RuneStart b); reflexivity).
  destruct (RuneStart b); [|simpl; congruence].
  replace (slice (b :: t) 0 0) with (Some (@nil byte)) by reflexivity.
  change (0 + 0) with 0. apply IH.
Qed.

(** X4: with [maxLen <= 0] (a [cmdMaxBytes] below 2 in [Push]) [splitText]
    never returns on a non-empty string: it panics on a negative index, or
    loops for ever appending empty chunks, or panics walking back. *)
Theorem splitText_nonpositive_never_returns : forall s maxLen fuel chunks,
  s <> [] -> maxLen <= 0 -> splitText_fuel fuel s maxLen <> Ok chunks.
Proof.
  intros s maxLen fuel chunks Hs Hm; destruct s as [|b t]; [congruence|].
  unfold splitText_fuel.
  destruct (Z.eq_dec maxLen 0) as [->|Hneg]; [apply split_zero_never_ok|].
  destruct fuel as [|f]; [discriminate|].
  cbn [split_loop]. rewrite (proj2 (Z.ltb_lt maxLen _)) by (simpl; lia).
  unfold walk_back; rewrite (proj2 (Z.ltb_lt maxLen 0)) by lia; discriminate.
Qed.

Lemma splitText_nonpositive_never_returns_witness :
  [x61] <> [] /\ 0 <= 0 /\ splitText_fuel 10 [x61] 0 <> Ok [[x61]].
Proof.
  split; [discriminate|]. split; [lia|].
  apply splitText_nonpositive_never_returns; [discriminate | lia].
Defined.

(** ** What reaches the wire *)

Lemma in_slice : forall {A} (s c : list A) l r, slice s l r = Some c ->
  forall x, In x c -> In x s.
Proof.
  intros A s c l r Hs x Hx; unfold slice in Hs.
  destruct ((0 <=? l) && (l <=? r) && (r <=? Z.of_nat (length s))); [|discriminate].
  injection Hs as <-.
  rewrite <- (firstn_skipn (Z.to_nat l) s); apply in_or_app; right.
  rewrite <- (firstn_skipn (Z.to_nat (r - l)) (skipn (Z.to_nat l) s)); apply in_or_app; left.
  exact Hx.
Qed.

Lemma split_loop_pieces : forall fuel s m l r acc res,
  split_loop fuel s m l r acc = Ok res ->
  forall c, In c res -> In c acc \/ (forall x, In x c -> In x s).
Proof.
  induction fuel as [|f IH]; intros s m l r acc res H c Hc; [discriminate|].
  cbn [split_loop] in H.
  destruct (r <? Z.of_nat (length s)).
  - destruct (walk_back s r) as [r'|]; [|discriminate].
    destruct (slice s l r') as [c'|] eqn:Hs; [|discriminate].
    destruct (IH _ _ _ _ _ _ H c Hc) as [Hin|Hin]; [|right; exact Hin].
    apply in_app_or in Hin as [Hin|[<-|[]]]; [left; exact Hin|].
    right; eapply in_slice; exact Hs.
  - destruct (slice s l (Z.of_nat (length s))) as [c'|] eqn:Hs; [|discriminate].
    injection H as <-.
    apply in_app_or in Hc as [Hin|[<-|[]]]; [left; exact Hin|].
    right; eapply in_slice; exact Hs.
Qed.

Lemma push_chunks_agree : forall env1 env2 collection bucket object chunks,
  (forall line, ~ In x0a line ->
     drv_write env1 line = drv_write env2 line /\ drv_read env1 line = drv_read env2 line) ->
  ~ In x0a collection -> ~ In x0a bucket -> ~ In x0a object ->
  Forall (fun c => ~ In x0a c) chunks ->
  push_chunks env1 collection bucket object chunks =
    push_chunks env2 collection bucket object chunks.
Proof.
  intros env1 env2 collection bucket object chunks Henv Hc Hb Ho Hall.
  induction Hall as [|chunk rest Hch _ IH]; [reflexivity|].
  simpl push_chunks.
  assert (Hl : ~ In x0a (command push_verb collection bucket object chunk)).
  { unfold command, push_verb; intros H.
    repeat (apply in_app_or in H as [H|H]);
      solve [contradiction | simpl in H; intuition discriminate]. }
  destruct (Henv _ Hl) as [-> ->]; rewrite IH; reflexivity.
Qed.

(** X5: when collection, bucket and object contain no newline byte,
    [Push] writes no raw newline whatever the text (which it escapes): its
    outcome only depends on how the driver connection answers lines without
    a newline. *)
Theorem push_never_sends_raw_newline : forall env1 env2 collection bucket object text,
  cmdMaxBytes env1 = cmdMaxBytes env2 ->
  (forall line, ~ In x0a line ->
     drv_write env1 line = drv_write env2 line /\ drv_read env1 line = drv_read env2 line) ->
  ~ In x0a collection -> ~ In x0a bucket -> ~ In x0a object ->
  Push env1 collection bucket object text = Push env2 collection bucket object text.
Proof.
  intros env1 env2 collection bucket object text Hmax Henv Hc Hb Ho.
  unfold Push; rewrite Hmax.
  destruct (splitText (escape text) (Z.quot (cmdMaxBytes env2) 2)) as [chunks| |] eqn:Hs;
    [|reflexivity|reflexivity].
  apply push_chunks_agree; auto.
  apply Forall_forall; intros c Hin Hnl.
  unfold splitText, splitText_fuel in Hs.
  destruct (split_loop_pieces _ _ _ _ _ _ _ Hs c Hin) as [[]|Hx].
  exact (escape_no_newline text (Hx _ Hnl)).
Qed.

Lemma push_never_sends_raw_newline_witness :
  (forall line, ~ In x0a line ->
     drv_write env_all_ok line = drv_write env_rejects_newline line /\
     drv_read env_all_ok line = drv_read env_rejects_newline line) /\
  In x0a line1_nl_line2 /\
  Push env_all_ok [x63] [x62] [x6f] line1_nl_line2 = Ok None /\
  Push env_rejects_newline [x63] [x62] [x6f] line1_nl_line2 = Ok None.
Proof.
  assert (Hn : forall b, b <> x0a -> ~ In x0a [b]) by (intros b Hb [H|[]]; congruence).
  assert (He : forall line, ~ In x0a line ->
     drv_write env_all_ok line = drv_write env_rejects_newline line /\
     drv_read env_all_ok line = drv_read env_rejects_newline line).
  { intros line Hl; simpl; split; [|reflexivity].
    destruct (existsb (Byte.eqb x0a) line) eqn:E; [|reflexivity].
    apply existsb_exists in E as [x [Hx Hq]].
    apply Byte.byte_dec_bl in Hq. subst x; contradiction. }
  assert (Hok : Push env_all_ok [x63] [x62] [x6f] line1_nl_line2 = Ok None)
    by (vm_compute; reflexivity).
  split; [exact He|]. split; [simpl; tauto|]. split; [exact Hok|].
  rewrite <- (push_never_sends_raw_newline env_all_ok env_rejects_newline);
    [exact Hok | reflexivity | exact He | apply Hn; discriminate ..].
Defined.

(** X6: [Pop] writes its text as given: for every text with a newline
    byte, two driver connections that answer every newline-free line alike
    can give [Pop] different outcomes (unlike [Push], see X5). *)
Theorem pop_sends_raw_newline : forall collection bucket object text,
  In x0a text ->
  exists env1 env2,
    cmdMaxBytes env1 = cmdMaxBytes env2 /\
    (forall line, ~ In x0a line ->
       drv_write env1 line = drv_write env2 line /\ drv_read env1 line = drv_read env2 line) /\
    Pop env1 collection bucket object text = Ok None /\
    Pop env2 collection bucket object text = Ok (Some (ErrIO 0)).
Proof.
  intros collection bucket object text Hin.
  set (wr := fun line : list byte => if existsb (Byte.eqb x0a) line then IErr (ErrIO 0) else IOk).
  exists {| cmdMaxBytes := 0; newConnection_ok := fun _ => true;
            drv_write := fun _ => IOk; drv_read := fun _ => IOk;
            conn_write := fun _ _ _ => IOk; conn_read := fun _ _ _ => IOk |},
         {| cmdMaxBytes := 0; newConnection_ok := fun _ => true;
            drv_write := wr; drv_read := fun _ => IOk;
            conn_write := fun _ _ _ => IOk; conn_read := fun _ _ _ => IOk |}.
  split; [reflexivity|]. split; [|split; [reflexivity|]].
  - intros line Hl; simpl; split; [|reflexivity].
    unfold wr; destruct (existsb (Byte.eqb x0a) line) eqn:E; [|reflexivity].
    apply existsb_exists in E as [x [Hx Hq]].
    apply Byte.byte_dec_bl in Hq. subst x; contradiction.
  - unfold Pop; simpl drv_write; unfold wr.
    replace (existsb (Byte.eqb x0a) (command pop_verb collection bucket object text)) with true;
      [reflexivity|].
    symmetry; apply existsb_exists; exists x0a; split; [|reflexivity].
    unfold command; do 8 (apply in_or_app; right). apply in_or_app; left; exact Hin.
Qed.

Lemma pop_sends_raw_newline_witness :
  In x0a line1_nl_line2 /\
  exists env1 env2,
    cmdMaxBytes env1 = cmdMaxBytes env2 /\
    (forall line, ~ In x0a line ->
       drv_write env1 line = drv_write env2 line /\ drv_read env1 line = drv_read env2 line) /\
    Pop env1 [x63] [x62] [x6f] line1_nl_line2 = Ok None /\
    Pop env2 [x63] [x62] [x6f] line1_nl_line2 = Ok (Some (ErrIO 0)).
Proof.
  assert (H : In x0a line1_nl_line2) by (simpl; tauto).
  split; [exact H|]. apply pop_sends_raw_newline; exact H.
Defined.

(** ** Push over its chunks *)

(** X7: the chunk loop of [Push] composes: it runs the chunks of a prefix
    first, and only when all of them were written and acknowledged does it
    go on with the rest; the first error (or a panic or block) ends it. *)
Theorem push_chunks_app : forall env collection bucket object ch1 ch2,
  push_chunks env collection bucket object (ch1 ++ ch2) =
    match push_chunks env collection bucket object ch1 with
    | Ok None => push_chunks env collection bucket object ch2
    | r => r
    end.
Proof.
  intros env collection bucket object ch1 ch2; induction ch1 as [|c ch1 IH]; [reflexivity|].
  simpl. destruct (drv_write env _); try reflexivity.
  destruct (drv_read env _); try reflexivity. exact IH.
Qed.

(** ** The partitioner: the partitions in closed form *)

Lemma ceil_step : forall a c, (1 <= c)%nat -> (1 <= a)%nat ->
  ((a + c - 1) / c = S ((a - c + c - 1) / c))%nat.
Proof.
  intros a c Hc Ha. destruct (Nat.le_gt_cases c a).
  - replace (a + c - 1)%nat with ((a - c + c - 1) + 1 * c)%nat by lia.
    rewrite Nat.div_add by lia. lia.
  - replace (a - c + c - 1)%nat with (c - 1)%nat by lia.
    rewrite (Nat.div_small (c - 1)) by lia.
    symmetry; apply Nat.div_unique with (r := (a - 1)%nat); lia.
Qed.

Lemma divide_loop_formula : forall records cs, 1 <= cs -> forall fuel i acc,
  (length records - i < fuel)%nat ->
  divide_loop fuel records cs (Z.of_nat i) acc =
    Ok (acc ++ map (fun k => firstn (Z.to_nat cs) (skipn (i + k * Z.to_nat cs) records))
                   (seq 0 ((length records - i + Z.to_nat cs - 1) / Z.to_nat cs))).
Proof.
  intros records cs Hcs fuel; induction fuel as [|f IH]; intros i acc Hf; [lia|].
  cbn [divide_loop].
  set (c := Z.to_nat cs).
  destruct (Z.of_nat i <? Z.of_nat (length records)) eqn:Hlt.
  - apply Z.ltb_lt in Hlt.
    set (e := Nat.min c (length records - i)).
    assert (Hend : (if Z.of_nat i + cs >? Z.of_nat (length records)
                    then Z.of_nat (length records) else Z.of_nat i + cs)
                   = Z.of_nat (i + e)).
    { unfold e, c; destruct (Z.of_nat i + cs >? Z.of_nat (length records)) eqn:Hg.
      - apply Z.gtb_lt in Hg; lia.
      - rewrite Z.gtb_ltb in Hg; apply Z.ltb_ge in Hg; lia. }
    rewrite Hend, slice_nat by lia.
    replace (i + e - i)%nat with e by lia.
    replace (Z.of_nat i + cs) with (Z.of_nat (i + c)) by (unfold c; lia).
    rewrite IH by (unfold c; lia).
    rewrite <- app_assoc; simpl app; f_equal; f_equal.
    rewrite (ceil_step (length records - i) c) by (unfold c; lia).
    replace (length records - (i + c))%nat with (length records - i - c)%nat by lia.
    simpl seq; simpl map; f_equal.
    + unfold e; rewrite <- length_skipn, firstn_min_length, Nat.add_0_r; reflexivity.
    + rewrite <- seq_shift, map_map. apply map_ext; intros k.
      f_equal; f_equal; simpl; lia.
  - apply Z.ltb_ge in Hlt.
    replace (length records - i)%nat with 0%nat by lia.
    rewrite Nat.div_small by (unfold c; lia). rewrite app_nil_r; reflexivity.
Qed.

(** X8: for [p >= 1] without overflow, with [cs] the ceiling of
    [len(records) / p], the partitioner returns the slices
    [records[k*cs : min((k+1)*cs, len)]] for [k] from 0 to the ceiling of
    [len / cs] minus one, and there are at most [p] of them. *)
Theorem divide_partition_formula : forall records p,
  1 <= p -> Z.of_nat (length records) + p - 1 <= max_int ->
  let cs := Z.to_nat ((Z.of_nat (length records) + p - 1) / p) in
  divideIngestBulkRecords records p =
    Ok (map (fun k => firstn cs (skipn (k * cs) records))
            (seq 0 ((length records + cs - 1) / cs))) /\
  ((length records + cs - 1) / cs <= Z.to_nat p)%nat.
Proof.
  intros records p Hp Hmax cs.
  unfold divideIngestBulkRecords.
  rewrite (proj2 (Z.eqb_neq p 0)) by lia.
  rewrite chunkSize_ceil by lia.
  destruct records as [|r rs].
  - assert (H0 : cs = 0%nat).
    { unfold cs; simpl Z.of_nat. rewrite Z.div_small by lia; reflexivity. }
    rewrite H0; split; [reflexivity | simpl; lia].
  - set (n := length (r :: rs)) in *.
    assert (Hq : 1 <= (Z.of_nat n + p - 1) / p)
      by (apply Z.div_le_lower_bound; unfold n in *; simpl length in *; lia).
    assert (Hc : (1 <= cs)%nat) by (unfold cs; lia).
    split.
    + change 0 with (Z.of_nat 0).
      rewrite divide_loop_formula by (try exact Hq; lia).
      fold cs; rewrite Nat.sub_0_r; reflexivity.
    + assert (H1 : Z.of_nat n + p - 1 < p * Z.succ ((Z.of_nat n + p - 1) / p))
        by (apply Z.mul_succ_div_gt; lia).
      assert (H2 : (n <= cs * Z.to_nat p)%nat).
      { apply Nat2Z.inj_le. rewrite Nat2Z.inj_mul. unfold cs.
        rewrite !Z2Nat.id by lia. lia. }
      apply Nat.lt_succ_r, Nat.Div0.div_lt_upper_bound; lia.
Qed.

Lemma divide_partition_formula_witness :
  1 <= 4 /\ Z.of_nat (length five_records) + 4 - 1 <= max_int /\
  divideIngestBulkRecords five_records 4 =
    Ok (map (fun k => firstn 2 (skipn (k * 2) five_records)) (seq 0 3)) /\
  (3 <= 4)%nat.
Proof.
  split; [lia|]. split; [unfold max_int; simpl; lia|].
  apply (divide_partition_formula five_records 4); [lia | unfold max_int; simpl; lia].
Defined.

(** ** The workers, record by record *)

Lemma bulk_push_worker_acc : forall env collection bucket k opened recs acc errs,
  bulk_push_worker env collection bucket k opened recs acc = Ok errs ->
  exists per, errs = acc ++ concat per /\
    Forall2 (fun rec es => Forall (fun e => EObject e = Object rec) es /\
      if opened then (length es <= 1)%nat
      else exists extra, es = bulk_error rec ErrClosed :: extra /\ (length extra <= 1)%nat)
      recs per.
Proof.
  intros env collection bucket k opened recs; induction recs as [|rec rest IH];
    intros acc errs H.
  - injection H as <-; exists []; split; [rewrite app_nil_r; reflexivity | constructor].
  - simpl in H.
    set (acc' := if opened then acc else acc ++ [bulk_error rec ErrClosed]) in H.
    assert (Hstep : forall es, acc' ++ es = acc ++ (if opened then [] else [bulk_error rec ErrClosed]) ++ es)
      by (intros es; unfold acc'; destruct opened; [reflexivity | rewrite <- app_assoc; reflexivity]).
    assert (Hrec : forall es, (length es <= 1)%nat -> Forall (fun e => EObject e = Object rec) es ->
      forall per, errs = (acc' ++ es) ++ concat per ->
      Forall2 (fun rec es => Forall (fun e => EObject e = Object rec) es /\
        if opened then (length es <= 1)%nat
        else exists extra, es = bulk_error rec ErrClosed :: extra /\ (length extra <= 1)%nat)
        rest per ->
      exists per', errs = acc ++ concat per' /\
        Forall2 (fun rec es => Forall (fun e => EObject e = Object rec) es /\
          if opened then (length es <= 1)%nat
          else exists extra, es = bulk_error rec ErrClosed :: extra /\ (length extra <= 1)%nat)
          (rec :: rest) per').
    { intros es Hl Ho per -> Hper.
      exists (((if opened then [] else [bulk_error rec ErrClosed]) ++ es) :: per).
      split; [rewrite <- app_assoc, Hstep; simpl concat; rewrite !app_assoc; reflexivity|].
      constructor; [|exact Hper]. split.
      - apply Forall_app; split; [destruct opened; repeat constructor|exact Ho].
      - destruct opened; [exact Hl|]. exists es; split; [reflexivity | exact Hl]. }
    destruct (Push env collection bucket (Object rec) (Text rec)) as [[e|]| |];
      try discriminate.
    + destruct (IH _ _ H) as [per [Herr Hper]].
      exact (Hrec [bulk_error rec e] ltac:(simpl; lia) ltac:(repeat constructor) per Herr Hper).
    + destruct (conn_read env k opened rec) as [|e| |]; try discriminate.
      * destruct (IH _ _ H) as [per [Herr Hper]].
        apply (Hrec [] ltac:(simpl; lia) ltac:(constructor) per); [rewrite app_nil_r; exact Herr | exact Hper].
      * destruct (IH _ _ H) as [per [Herr Hper]].
        exact (Hrec [bulk_error rec e] ltac:(simpl; lia) ltac:(repeat constructor) per Herr Hper).
Qed.

Lemma bulk_pop_worker_acc : forall env collection bucket k opened recs acc errs,
  bulk_pop_worker env collection bucket k opened recs acc = Ok errs ->
  exists per, errs = acc ++ concat per /\
    Forall2 (fun rec es => Forall (fun e => EObject e = Object rec) es /\
      if opened then (length es <= 1)%nat
      else exists extra, es = bulk_error rec ErrClosed :: extra /\ (length extra <= 1)%nat)
      recs per.
Proof.
  intros env collection bucket k opened recs; induction recs as [|rec rest IH];
    intros acc errs H.
  - injection H as <-; exists []; split; [rewrite app_nil_r; reflexivity | constructor].
  - simpl in H.
    set (acc' := if opened then acc else acc ++ [bulk_error rec ErrClosed]) in H.
    assert (Hstep : forall es, acc' ++ es = acc ++ (if opened then [] else [bulk_error rec ErrClosed]) ++ es)
      by (intros es; unfold acc'; destruct opened; [reflexivity | rewrite <- app_assoc; reflexivity]).
    assert (Hrec : forall es, (length es <= 1)%nat -> Forall (fun e => EObject e = Object rec) es ->
      forall per, errs = (acc' ++ es) ++ concat per ->
      Forall2 (fun rec es => Forall (fun e => EObject e = Object rec) es /\
        if opened then (length es <= 1)%nat
        else exists extra, es = bulk_error rec ErrClosed :: extra /\ (length extra <= 1)%nat)
        rest per ->
      exists per', errs = acc ++ concat per' /\
        Forall2 (fun rec es => Forall (fun e => EObject e = Object rec) es /\
          if opened then (length es <= 1)%nat
          else exists extra, es = bulk_error rec ErrClosed :: extra /\ (length extra <= 1)%nat)
          (rec :: rest) per').
    { intros es Hl Ho per -> Hper.
      exists (((if opened then [] else [bulk_error rec ErrClosed]) ++ es) :: per).
      split; [rewrite <- app_assoc, Hstep; simpl concat; rewrite !app_assoc; reflexivity|].
      constructor; [|exact Hper]. split.
      - apply Forall_app; split; [destruct opened; repeat constructor|exact Ho].
      - destruct opened; [exact Hl|]. exists es; split; [reflexivity | exact Hl]. }
    destruct (conn_write env k opened _) as [|e| |]; try discriminate.
    + destruct (conn_read env k opened rec) as [|e| |]; try discriminate.
      * destruct (IH _ _ H) as [per [Herr Hper]].
        apply (Hrec [] ltac:(simpl; lia) ltac:(constructor) per); [rewrite app_nil_r; exact Herr | exact Hper].
      * destruct (IH _ _ H) as [per [Herr Hper]].
        exact (Hrec [bulk_error rec e] ltac:(simpl; lia) ltac:(repeat constructor) per Herr Hper).
    + destruct (IH _ _ H) as [per [Herr Hper]].
      exact (Hrec [bulk_error rec e] ltac:(simpl; lia) ltac:(repeat constructor) per Herr Hper).
Qed.

(** X9: a [BulkPush] worker reports record by record, in record order:
    the errors it appends are the concatenation of one group per record of
    its partition, each naming that record's object; with a connection a
    group holds at most one error, without one it starts with [ErrClosed]
    and holds at most one more. *)
Theorem bulk_push_worker_per_record : forall env collection bucket k opened recs errs,
  bulk_push_worker env collection bucket k opened recs [] = Ok errs ->
  exists per, errs = concat per /\
    Forall2 (fun rec es => Forall (fun e => EObject e = Object rec) es /\
      if opened then (length es <= 1)%nat
      else exists extra, es = bulk_error rec ErrClosed :: extra /\ (length extra <= 1)%nat)
      recs per.
Proof.
  intros env collection bucket k opened recs errs H.
  destruct (bulk_push_worker_acc _ _ _ _ _ _ _ _ H) as [per [He Hp]].
  exists per; split; [exact He | exact Hp].
Qed.

Lemma bulk_push_worker_per_record_witness :
  bulk_push_worker env_ack_fails [x63] [x62] 0 false [rec_of x41; rec_of x42] [] =
    Ok [bulk_error (rec_of x41) ErrClosed; bulk_error (rec_of x41) (ErrIO 7);
        bulk_error (rec_of x42) ErrClosed; bulk_error (rec_of x42) (ErrIO 7)] /\
  exists per,
    [bulk_error (rec_of x41) ErrClosed; bulk_error (rec_of x41) (ErrIO 7);
     bulk_error (rec_of x42) ErrClosed; bulk_error (rec_of x42) (ErrIO 7)] = concat per /\
    Forall2 (fun rec es => Forall (fun e => EObject e = Object rec) es /\
      exists extra, es = bulk_error rec ErrClosed :: extra /\ (length extra <= 1)%nat)
      [rec_of x41; rec_of x42] per.
Proof.
  split; [reflexivity|].
  apply (bulk_push_worker_per_record env_ack_fails [x63] [x62] 0 false); reflexivity.
Defined.

(** X10: the same holds for a [BulkPop] worker: one group of errors per
    record, in record order, each naming the record's object; at most one
    error with a connection, [ErrClosed] and at most one more without. *)
Theorem bulk_pop_worker_per_record : forall env collection bucket k opened recs errs,
  bulk_pop_worker env collection bucket k opened recs [] = Ok errs ->
  exists per, errs = concat per /\
    Forall2 (fun rec es => Forall (fun e => EObject e = Object rec) es /\
      if opened then (length es <= 1)%nat
      else exists extra, es = bulk_error rec ErrClosed :: extra /\ (length extra <= 1)%nat)
      recs per.
Proof.
  intros env collection bucket k opened recs errs H.
  destruct (bulk_pop_worker_acc _ _ _ _ _ _ _ _ H) as [per [He Hp]].
  exists per; split; [exact He | exact Hp].
Qed.

Lemma bulk_pop_worker_per_record_witness :
  bulk_pop_worker env_pop_mixed [x63] [x62] 0 false two_records [] =
    Ok [bulk_error (rec_of x41) ErrClosed; bulk_error (rec_of x41) (ErrIO 1);
        bulk_error (rec_of x42) ErrClosed; bulk_error (rec_of x42) (ErrIO 2)] /\
  exists per,
    [bulk_error (rec_of x41) ErrClosed; bulk_error (rec_of x41) (ErrIO 1);
     bulk_error (rec_of x42) ErrClosed; bulk_error (rec_of x42) (ErrIO 2)] = concat per /\
    Forall2 (fun rec es => Forall (fun e => EObject e = Object rec) es /\
      exists extra, es = bulk_error rec ErrClosed :: extra /\ (length extra <= 1)%nat)
      two_records per.
Proof.
  assert (H : bulk_pop_worker env_pop_mixed [x63] [x62] 0 false two_records [] =
    Ok [bulk_error (rec_of x41) ErrClosed; bulk_error (rec_of x41) (ErrIO 1);
        bulk_error (rec_of x42) ErrClosed; bulk_error (rec_of x42) (ErrIO 2)])
    by (vm_compute; reflexivity).
  split; [exact H|].
  exact (bulk_pop_worker_per_record env_pop_mixed [x63] [x62] 0 false two_records _ H).
Defined.

(** ** Count *)

Lemma digit_range : forall d, is_digit d = true -> 0 <= bz d - 0x30 <= 9.
Proof.
  intros d H; unfold is_digit, in_range in H.
  apply andb_true_iff in H as [H1 H2]; apply Z.leb_le in H1, H2; lia.
Qed.

Lemma digit_not_sign : forall d, is_digit d = true -> Byte.eqb d x2d = false /\ Byte.eqb d x2b = false.
Proof. intros d H; destruct d; try discriminate H; split; reflexivity. Qed.

Lemma decimal_from_bounds : forall ds a, 0 <= a -> Forall (fun d => is_digit d = true) ds ->
  a * 10 ^ Z.of_nat (length ds) <= decimal_from a ds < (a + 1) * 10 ^ Z.of_nat (length ds).
Proof.
  induction ds as [|d t IH]; intros a Ha Hd.
  - simpl; lia.
  - inversion Hd as [|? ? Hd1 Ht]; subst.
    pose proof (digit_range d Hd1) as Hr.
    simpl decimal_from. rewrite length_cons, Nat2Z.inj_succ, Z.pow_succ_r by lia.
    pose proof (Z.pow_pos_nonneg 10 (Z.of_nat (length t)) ltac:(lia) ltac:(lia)) as Hp.
    destruct (IH (a * 10 + (bz d - 0x30)) ltac:(lia) Ht) as [Hl Hu]. nia.
Qed.

Lemma parse_uint_loop_digits : forall ds acc, Forall (fun d => is_digit d = true) ds ->
  0 <= acc <= max_uint64 ->
  parse_uint_loop acc ds =
    if decimal_from acc ds <=? max_uint64 then (decimal_from acc ds, None)
    else (max_uint64, Some ErrRange).
Proof.
  assert (Hm : max_uint64 = 18446744073709551615) by reflexivity.
  assert (Hc : max_uint64 / 10 + 1 = 1844674407370955162) by reflexivity.
  induction ds as [|d t IH]; intros acc Hd Ha.
  - simpl. rewrite (proj2 (Z.leb_le _ _)) by lia; reflexivity.
  - inversion Hd as [|? ? Hd1 Ht]; subst.
    pose proof (digit_range d Hd1) as Hr.
    pose proof (decimal_from_bounds t (acc * 10 + (bz d - 0x30)) ltac:(lia) Ht) as [Hl _].
    pose proof (Z.pow_pos_nonneg 10 (Z.of_nat (length t)) ltac:(lia) ltac:(lia)) as Hp.
    cbn [parse_uint_loop decimal_from]. rewrite Hd1; simpl negb; cbv iota.
    rewrite Hc.
    destruct (acc >=? 1844674407370955162) eqn:Hge.
    + apply Z.geb_le in Hge.
      rewrite (proj2 (Z.leb_gt _ _)) by nia; reflexivity.
    + rewrite Z.geb_leb in Hge; apply Z.leb_gt in Hge.
      destruct (acc * 10 + (bz d - 0x30) >? max_uint64) eqn:Hgt.
      * apply Z.gtb_lt in Hgt.
        rewrite (proj2 (Z.leb_gt _ _)) by nia; reflexivity.
      * rewrite Z.gtb_ltb in Hgt; apply Z.ltb_ge in Hgt.
        apply IH; [exact Ht | lia].
Qed.

Lemma atoi_fast_loop_digits : forall ds acc, Forall (fun d => is_digit d = true) ds ->
  atoi_fast_loop acc ds = Some (decimal_from acc ds).
Proof.
  induction ds as [|d t IH]; intros acc Hd; [reflexivity|].
  inversion Hd as [|? ? Hd1 Ht]; subst.
  simpl; rewrite Hd1; apply IH; exact Ht.
Qed.

Lemma Atoi_digits : forall ds, ds <> [] -> Forall (fun d => is_digit d = true) ds ->
  Atoi ds =
    if decimal_from 0 ds <=? max_int then (decimal_from 0 ds, None)
    else (max_int, Some ErrRange).
Proof.
  intros ds Hne Hd.
  destruct ds as [|c t]; [congruence|].
  pose proof (Forall_inv Hd) as Hc; cbv beta in Hc.
  destruct (digit_not_sign c Hc) as [Hm Hp].
  pose proof (decimal_from_bounds (c :: t) 0 ltac:(lia) Hd) as [_ Hu].
  unfold Atoi.
  destruct ((0 <? Z.of_nat (length (c :: t))) && (Z.of_nat (length (c :: t)) <? 19)) eqn:Hfast.
  - apply andb_true_iff in Hfast as [_ H19]; apply Z.ltb_lt in H19.
    rewrite Hm, Hp; simpl orb; cbv iota. simpl andb; cbv iota.
    rewrite atoi_fast_loop_digits by exact Hd.
    assert (Hb : 10 ^ Z.of_nat (length (c :: t)) <= 10 ^ 18)
      by (apply Z.pow_le_mono_r; lia).
    rewrite (proj2 (Z.leb_le _ max_int)) by (unfold max_int; lia). reflexivity.
  - unfold ParseInt. rewrite Hp, Hm; cbv iota.
    unfold ParseUint at 1. rewrite parse_uint_loop_digits by (first [exact Hd | unfold max_uint64; lia]).
    unfold max_int, max_uint64.
    destruct (decimal_from 0 (c :: t) <=? 2 ^ 64 - 1) eqn:H64.
    + apply Z.leb_le in H64.
      destruct (decimal_from 0 (c :: t) <=? 2 ^ 63 - 1) eqn:H63.
      * apply Z.leb_le in H63.
        rewrite Z.geb_leb, (proj2 (Z.leb_gt _ _)) by lia. reflexivity.
      * apply Z.leb_gt in H63.
        rewrite (proj2 (Z.geb_le _ _)) by lia. reflexivity.
    + apply Z.leb_gt in H64.
      rewrite (proj2 (Z.leb_gt (decimal_from 0 (c :: t)) (2 ^ 63 - 1))) by lia.
      reflexivity.
Qed.

(** X11: when the COUNT line is written and the reply is RESULT followed
    by a space and a non-empty run of decimal digits, [Count] returns the
    value of the digits without error if it fits in [int], and [MaxInt64]
    with a range error otherwise (both paths of [strconv.Atoi]). *)
Theorem count_reads_result : forall write collection bucket object ds,
  write (count_line collection bucket object) = IOk ->
  ds <> [] -> Forall (fun d => is_digit d = true) ds ->
  Count write (RLine (result_prefix ++ ds)) collection bucket object =
    Ok (if decimal_from 0 ds <=? max_int then (decimal_from 0 ds, None)
        else (max_int, Some (CountParse ErrRange))).
Proof.
  intros write collection bucket object ds Hw Hne Hd.
  unfold Count; rewrite Hw.
  change 7 with (Z.of_nat (length result_prefix)).
  rewrite slice_nat by (rewrite length_app; lia).
  rewrite skipn_app_length, length_app.
  replace (length result_prefix + length ds - length result_prefix)%nat with (length ds) by lia.
  rewrite firstn_all, Atoi_digits by assumption.
  destruct (decimal_from 0 ds <=? max_int); reflexivity.
Qed.

Lemma count_reads_result_witness :
  (fun _ : list byte => IOk) (count_line [x63] [x62] []) = IOk /\
  [x34; x32] <> [] /\ Forall (fun d => is_digit d = true) [x34; x32] /\
  Count (fun _ => IOk) (RLine (result_prefix ++ [x34; x32])) [x63] [x62] [] = Ok (42, None).
Proof.
  assert (Hd : Forall (fun d => is_digit d = true) [x34; x32]) by (repeat constructor).
  split; [reflexivity|]. split; [discriminate|]. split; [exact Hd|].
  exact (count_reads_result (fun _ => IOk) [x63] [x62] [] [x34; x32] eq_refl
           ltac:(discriminate) Hd).
Defined.

(** ** What BulkPush and BulkPop return, over all workers *)

(** Whenever the partitioner returns, its partitions are consecutive and
    cover the records, whatever [chunkSize] was computed. *)
Lemma divide_loop_concat : forall records cs fuel i acc res, 0 <= i ->
  divide_loop fuel records cs i acc = Ok res ->
  exists parts, res = acc ++ parts /\ concat parts = skipn (Z.to_nat i) records.
Proof.
  intros records cs fuel; induction fuel as [|f IH]; intros i acc res Hi H; [discriminate|].
  cbn [divide_loop] in H.
  destruct (i <? Z.of_nat (length records)) eqn:Hlt.
  - apply Z.ltb_lt in Hlt.
    set (end_ := if i + cs >? Z.of_nat (length records)
                 then Z.of_nat (length records) else i + cs) in H.
    destruct (slice records i end_) as [part|] eqn:Hs; [|discriminate].
    unfold slice in Hs.
    destruct ((0 <=? i) && (i <=? end_) && (end_ <=? Z.of_nat (length records))) eqn:Hb;
      [|discriminate].
    apply andb_true_iff in Hb as [Hb Hb3]; apply andb_true_iff in Hb as [_ Hb2].
    apply Z.leb_le in Hb2, Hb3. injection Hs as <-.
    assert (Hend : end_ = i + cs /\ i + cs <= Z.of_nat (length records) \/
                   end_ = Z.of_nat (length records) /\ Z.of_nat (length records) < i + cs).
    { unfold end_; destruct (i + cs >? Z.of_nat (length records)) eqn:Hg.
      - apply Z.gtb_lt in Hg; right; split; [reflexivity | exact Hg].
      - rewrite Z.gtb_ltb in Hg; apply Z.ltb_ge in Hg; left; split; [reflexivity | exact Hg]. }
    destruct (IH (i + cs) _ _ ltac:(lia) H) as [parts [-> Hc]].
    exists (firstn (Z.to_nat (end_ - i)) (skipn (Z.to_nat i) records) :: parts).
    split; [rewrite <- app_assoc; reflexivity|].
    simpl concat; rewrite Hc.
    destruct Hend as [[He Hle] | [He Hgt]].
    + rewrite He. replace (Z.to_nat (i + cs)) with (Z.to_nat (i + cs - i) + Z.to_nat i)%nat by lia.
      rewrite <- skipn_skipn; apply firstn_skipn.
    + rewrite (skipn_all2 (n := Z.to_nat (i + cs))) by lia.
      rewrite app_nil_r; apply firstn_all2. rewrite length_skipn; lia.
  - exists []; split; [rewrite app_nil_r; injection H as <-; reflexivity|].
    apply Z.ltb_ge in Hlt; rewrite skipn_all2 by lia; reflexivity.
Qed.

Lemma divide_concat : forall records p divided,
  divideIngestBulkRecords records p = Ok divided -> concat divided = records.
Proof.
  intros records p divided H; unfold divideIngestBulkRecords in H.
  destruct (p =? 0); [discriminate|].
  destruct (divide_loop_concat _ _ _ 0 [] _ ltac:(lia) H) as [parts [-> Hc]].
  exact Hc.
Qed.

Lemma collect_spawn : forall {A B} (f : nat -> A -> result B) k parts ws,
  collect (spawn f k parts) = Ok ws ->
  Forall2 (fun part w => exists j, f j part = Ok w) parts ws.
Proof.
  intros A B f k parts; revert k; induction parts as [|part rest IH]; intros k ws H.
  - injection H as <-; constructor.
  - simpl in H.
    destruct (f k part) as [w| |] eqn:Hf;
      destruct (collect (spawn f (S k) rest)) as [ws'| |] eqn:Hc; try discriminate.
    injection H as <-. constructor; [exists k; exact Hf | exact (IH _ _ Hc)].
Qed.

Lemma interleaving_count : forall {A} (ls : list (list A)) out, interleaving ls out ->
  length out = list_sum (map (@length A) ls) /\
  (forall x, In x out -> exists l, In l ls /\ In x l).
Proof.
  intros A ls out H; induction H as [ls Hall | ls1 x xs ls2 out _ [IHl IHin]].
  - split; [|intros x []].
    induction Hall as [|l ls Hl _ IH]; [reflexivity|]. subst l; simpl; exact IH.
  - split.
    + rewrite !map_app, !list_sum_app in *; simpl in *; lia.
    + intros y [<-|Hy].
      * exists (x :: xs); split; [apply in_or_app; right; left; reflexivity | left; reflexivity].
      * destruct (IHin y Hy) as [l [Hl Hyl]].
        apply in_app_or in Hl as [Hl|[<-|Hl]].
        -- exists l; split; [apply in_or_app; left; exact Hl | exact Hyl].
        -- exists (x :: xs); split; [apply in_or_app; right; left; reflexivity | right; exact Hyl].
        -- exists l; split; [apply in_or_app; right; right; exact Hl | exact Hyl].
Qed.

Lemma interleaving_perm : forall {A} (ls : list (list A)) out,
  interleaving ls out -> Permutation out (concat ls).
Proof.
  intros A ls out H; induction H as [ls Hall | ls1 x xs ls2 out _ IH].
  - induction Hall as [|l ls Hl _ IH]; [constructor|]. subst l; exact IH.
  - rewrite !concat_app in *; simpl in *.
    eapply perm_trans; [apply perm_skip; exact IH | apply Permutation_middle].
Qed.

Lemma bulk_per_record : forall
  (worker : nat -> bool -> list IngestBulkRecord -> result (list IngestBulkError))
  (okc : nat -> bool) divided ws,
  (forall j opened recs w, worker j opened recs = Ok w ->
     exists per, w = concat per /\
       Forall2 (fun rec es => Forall (fun e => EObject e = Object rec) es /\
         if opened then (length es <= 1)%nat
         else exists extra, es = bulk_error rec ErrClosed :: extra /\ (length extra <= 1)%nat)
         recs per) ->
  collect (spawn (fun k recs => worker k (okc k) recs) 0 divided) = Ok ws ->
  exists per, concat ws = concat per /\
    Forall2 (fun rec es => Forall (fun e => EObject e = Object rec) es /\
      (length es <= 2)%nat /\ ((forall k, okc k = true) -> (length es <= 1)%nat))
      (concat divided) per.
Proof.
  intros worker okc divided ws Hworker Hc.
  apply collect_spawn in Hc.
  induction Hc as [|part w divided ws [j Hj] _ IH].
  - exists []; split; constructor.
  - destruct IH as [per2 [Hc2 Hf2]].
    destruct (Hworker _ _ _ _ Hj) as [per1 [-> Hf1]].
    exists (per1 ++ per2); split; [simpl; rewrite concat_app, Hc2; reflexivity|].
    simpl; apply Forall2_app; [|exact Hf2].
    eapply Forall2_impl; [|exact Hf1]. intros rec es [Ho Hl].
    split; [exact Ho|].
    destruct (okc j) eqn:Hok.
    + split; [lia|]. intros _; exact Hl.
    + destruct Hl as [extra [-> Hx]]. simpl.
      split; [lia|]. intros Hall; rewrite Hall in Hok; discriminate.
Qed.

(** X13: what [BulkPush] returns is, up to the order in which the workers'
    appends interleave, one group of errors per input record: each error of
    a group names that record's object, a group holds at most two errors,
    and at most one when every worker got its connection. *)
Theorem bulk_push_errors_accounted : forall env collection bucket p records errs,
  BulkPush_returns env collection bucket p records errs ->
  exists per, Permutation errs (concat per) /\
    Forall2 (fun rec es => Forall (fun e => EObject e = Object rec) es /\
      (length es <= 2)%nat /\ ((forall k, newConnection_ok env k = true) -> (length es <= 1)%nat))
      records per.
Proof.
  intros env collection bucket p records errs [ws [Hw Hi]].
  unfold BulkPush_workers in Hw.
  destruct (divideIngestBulkRecords records (clamp p)) as [divided| |] eqn:Hd; try discriminate.
  rewrite <- (divide_concat _ _ _ Hd).
  destruct (bulk_per_record (fun k opened recs => bulk_push_worker env collection bucket k opened recs [])
              (newConnection_ok env) divided ws) as [per [Hc Hf]];
    [intros j opened recs w Hj; exact (bulk_push_worker_acc _ _ _ _ _ _ _ _ Hj) | exact Hw |].
  exists per; split; [rewrite <- Hc; exact (interleaving_perm _ _ Hi) | exact Hf].
Qed.

Lemma bulk_push_errors_accounted_witness :
  BulkPush_returns env_ack_fails [x63] [x62] 2 two_records
    [bulk_error (rec_of x41) ErrClosed; bulk_error (rec_of x42) ErrClosed;
     bulk_error (rec_of x41) (ErrIO 7); bulk_error (rec_of x42) (ErrIO 7)] /\
  exists per,
    Permutation [bulk_error (rec_of x41) ErrClosed; bulk_error (rec_of x42) ErrClosed;
                 bulk_error (rec_of x41) (ErrIO 7); bulk_error (rec_of x42) (ErrIO 7)]
      (concat per) /\
    Forall2 (fun rec es => Forall (fun e => EObject e = Object rec) es /\
      (length es <= 2)%nat /\
      ((forall k, newConnection_ok env_ack_fails k = true) -> (length es <= 1)%nat))
      two_records per.
Proof.
  assert (H : BulkPush_returns env_ack_fails [x63] [x62] 2 two_records
    [bulk_error (rec_of x41) ErrClosed; bulk_error (rec_of x42) ErrClosed;
     bulk_error (rec_of x41) (ErrIO 7); bulk_error (rec_of x42) (ErrIO 7)]).
  { eexists; split; [vm_compute; reflexivity|].
    apply (il_step [] _ _ [_]). apply (il_step [_] _ _ []).
    apply (il_step [] _ _ [_]). apply (il_step [_] _ _ []).
    apply il_done; repeat constructor. }
  split; [exact H|]. exact (bulk_push_errors_accounted _ _ _ _ _ _ H).
Defined.

(** X14: what [BulkPop] returns is, up to the order in which the workers'
    appends interleave, one group of errors per input record: each error of
    a group names that record's object, a group holds at most two errors,
    and at most one when every worker got its connection. *)
Theorem bulk_pop_errors_accounted : forall env collection bucket p records errs,
  BulkPop_returns env collection bucket p records errs ->
  exists per, Permutation errs (concat per) /\
    Forall2 (fun rec es => Forall (fun e => EObject e = Object rec) es /\
      (length es <= 2)%nat /\ ((forall k, newConnection_ok env k = true) -> (length es <= 1)%nat))
      records per.
Proof.
  intros env collection bucket p records errs [ws [Hw Hi]].
  unfold BulkPop_workers in Hw.
  destruct (divideIngestBulkRecords records (clamp p)) as [divided| |] eqn:Hd; try discriminate.
  rewrite <- (divide_concat _ _ _ Hd).
  destruct (bulk_per_record (fun k opened recs => bulk_pop_worker env collection bucket k opened recs [])
              (newConnection_ok env) divided ws) as [per [Hc Hf]];
    [intros j opened recs w Hj; exact (bulk_pop_worker_acc _ _ _ _ _ _ _ _ Hj) | exact Hw |].
  exists per; split; [rewrite <- Hc; exact (interleaving_perm _ _ Hi) | exact Hf].
Qed.

Lemma bulk_pop_errors_accounted_witness :
  BulkPop_returns env_pop_mixed [x63] [x62] 2 two_records
    [bulk_error (rec_of x42) ErrClosed; bulk_error (rec_of x41) ErrClosed;
     bulk_error (rec_of x42) (ErrIO 2); bulk_error (rec_of x41) (ErrIO 1)] /\
  exists per,
    Permutation [bulk_error (rec_of x42) ErrClosed; bulk_error (rec_of x41) ErrClosed;
                 bulk_error (rec_of x42) (ErrIO 2); bulk_error (rec_of x41) (ErrIO 1)]
      (concat per) /\
    Forall2 (fun rec es => Forall (fun e => EObject e = Object rec) es /\
      (length es <= 2)%nat /\
      ((forall k, newConnection_ok env_pop_mixed k = true) -> (length es <= 1)%nat))
      two_records per.
Proof.
  assert (H : BulkPop_returns env_pop_mixed [x63] [x62] 2 two_records
    [bulk_error (rec_of x42) ErrClosed; bulk_error (rec_of x41) ErrClosed;
     bulk_error (rec_of x42) (ErrIO 2); bulk_error (rec_of x41) (ErrIO 1)]).
  { eexists; split; [vm_compute; reflexivity|].
    apply (il_step [_] _ _ []). apply (il_step [] _ _ [_]).
    apply (il_step [_] _ _ []). apply (il_step [] _ _ [_]).
    apply il_done; repeat constructor. }
  split; [exact H|]. exact (bulk_pop_errors_accounted _ _ _ _ _ _ H).
Defined.

(** ** splitText, whenever it returns *)

Lemma walk_back_n_le : forall s n k, walk_back_n s n = Some k -> (k <= n)%nat.
Proof.
  intros s n; induction n as [|n IH]; intros k H; cbn [walk_back_n] in H.
  - destruct (nth_error s 0); [|discriminate].
    destruct (RuneStart b); [injection H as <-; lia | discriminate].
  - destruct (nth_error s (S n)); [|discriminate].
    destruct (RuneStart b); [injection H as <-; lia|]. specialize (IH k H); lia.
Qed.

Lemma split_loop_returns : forall s m fuel l acc res, 0 <= l ->
  split_loop fuel s m l (l + m) acc = Ok res ->
  exists parts, res = acc ++ parts /\ concat parts = skipn (Z.to_nat l) s /\
    Forall (fun c => Z.of_nat (length c) <= m) parts.
Proof.
  intros s m fuel; induction fuel as [|f IH]; intros l acc res Hl H; [discriminate|].
  cbn [split_loop] in H.
  destruct (l + m <? Z.of_nat (length s)) eqn:Hlt.
  - destruct (walk_back s (l + m)) as [r'|] eqn:Hw; [|discriminate].
    assert (Hr' : r' <= l + m).
    { unfold walk_back in Hw. destruct (l + m <? 0) eqn:Hneg; [discriminate|].
      apply Z.ltb_ge in Hneg.
      destruct (walk_back_n s (Z.to_nat (l + m))) as [k|] eqn:Hk; [|discriminate].
      injection Hw as <-. apply walk_back_n_le in Hk; lia. }
    destruct (slice s l r') as [c|] eqn:Hs; [|discriminate].
    unfold slice in Hs.
    destruct ((0 <=? l) && (l <=? r') && (r' <=? Z.of_nat (length s))) eqn:Hb; [|discriminate].
    apply andb_true_iff in Hb as [Hb Hb3]; apply andb_true_iff in Hb as [_ Hb2].
    apply Z.leb_le in Hb2, Hb3. injection Hs as <-.
    destruct (IH r' _ _ ltac:(lia) H) as [parts [-> [Hc Hall]]].
    exists (firstn (Z.to_nat (r' - l)) (skipn (Z.to_nat l) s) :: parts).
    split; [rewrite <- app_assoc; reflexivity|]. split.
    + simpl concat; rewrite Hc.
      replace (Z.to_nat r') with (Z.to_nat (r' - l) + Z.to_nat l)%nat by lia.
      rewrite <- skipn_skipn; apply firstn_skipn.
    + constructor; [|exact Hall].
      rewrite length_firstn, length_skipn; lia.
  - apply Z.ltb_ge in Hlt.
    destruct (slice s l (Z.of_nat (length s))) as [c|] eqn:Hs; [|discriminate].
    unfold slice in Hs.
    destruct ((0 <=? l) && (l <=? Z.of_nat (length s)) &&
              (Z.of_nat (length s) <=? Z.of_nat (length s))) eqn:Hb; [|discriminate].
    apply andb_true_iff in Hb as [Hb _]; apply andb_true_iff in Hb as [_ Hb2].
    apply Z.leb_le in Hb2. injection Hs as <-. injection H as <-.
    exists [firstn (Z.to_nat (Z.of_nat (length s) - l)) (skipn (Z.to_nat l) s)].
    split; [reflexivity|]. split.
    + simpl; rewrite app_nil_r; apply firstn_all2; rewrite length_skipn; lia.
    + constructor; [|constructor]. rewrite length_firstn, length_skipn; lia.
Qed.

(** X15: whenever [splitText] returns, on any string (valid UTF-8 or not)
    and any [maxLen], its chunks concatenate to the string and none is
    longer than [maxLen] bytes. *)
Theorem splitText_returns_cover_bounded : forall s maxLen chunks,
  splitText s maxLen = Ok chunks ->
  concat chunks = s /\ Forall (fun c => Z.of_nat (length c) <= maxLen) chunks.
Proof.
  intros s maxLen chunks H; unfold splitText, splitText_fuel in H.
  change maxLen with (0 + maxLen) in H at 2.
  destruct (split_loop_returns s maxLen _ 0 [] chunks ltac:(lia) H) as [parts [-> [Hc Hall]]].
  split; [exact Hc | exact Hall].
Qed.

Lemma splitText_returns_cover_bounded_witness :
  splitText bad_utf8 8 = Ok [bad_utf8] /\
  concat [bad_utf8] = bad_utf8 /\ Forall (fun c => Z.of_nat (length c) <= 8) [bad_utf8].
Proof.
  assert (H : splitText bad_utf8 8 = Ok [bad_utf8]) by reflexivity.
  split; [exact H|]. exact (splitText_returns_cover_bounded _ _ _ H).
Defined.

(** ** The appends to the shared error list *)

Lemma nth_error_set_nth : forall {A} (l : list A) k x j,
  nth_error (set_nth l k x) j =
    if (j =? k)%nat then match nth_error l k with Some _ => Some x | None => None end
    else nth_error l j.
Proof.
  intros A l; induction l as [|y l IH]; intros k x j.
  - destruct k, j; simpl; try reflexivity. destruct (j =? k)%nat; reflexivity.
  - destruct k as [|k], j as [|j]; simpl; try reflexivity. apply IH.
Qed.

Lemma length_set_nth : forall {A} (l : list A) k x, length (set_nth l k x) = length l.
Proof. intros A l; induction l as [|y l IH]; intros [|k] x; simpl; auto. Qed.

Lemma countb_set_nth : forall {A} (f : A -> bool) l k y x, nth_error l k = Some y ->
  (countb f (set_nth l k x) + (if f y then 1 else 0) = countb f l + (if f x then 1 else 0))%nat.
Proof.
  intros A f l; induction l as [|z l IH]; intros [|k] y x H; simpl in H; try discriminate.
  - injection H as ->; simpl; lia.
  - simpl; specialize (IH k y x H); lia.
Qed.

Lemma countb_pos : forall {A} (f : A -> bool) l k y, nth_error l k = Some y -> f y = true ->
  (1 <= countb f l)%nat.
Proof.
  intros A f l; induction l as [|z l IH]; intros [|k] y H Hf; simpl in H; try discriminate.
  - injection H as ->; simpl; rewrite Hf; lia.
  - simpl; specialize (IH k y H Hf); lia.
Qed.

Lemma countb_two : forall {A} (f : A -> bool) l j k y z, j <> k ->
  nth_error l j = Some y -> nth_error l k = Some z -> f y = true -> f z = true ->
  (2 <= countb f l)%nat.
Proof.
  intros A f l; induction l as [|w l IH]; intros j k y z Hjk Hj Hk Hy Hz;
    [destruct j; discriminate|].
  destruct j as [|j], k as [|k]; simpl in Hj, Hk; [congruence | | |].
  - injection Hj as ->; simpl; rewrite Hy.
    pose proof (countb_pos f l k z Hk Hz); lia.
  - injection Hk as ->; simpl; rewrite Hz.
    pose proof (countb_pos f l j y Hj Hy); lia.
  - simpl; specialize (IH j k y z ltac:(congruence) Hj Hk Hy Hz); lia.
Qed.

Lemma countb_zero : forall {A} (f : A -> bool) l, countb f l = O -> Forall (fun x => f x = false) l.
Proof.
  intros A f l; induction l as [|x l IH]; intros H; constructor;
    simpl in H; destruct (f x); auto; lia.
Qed.

Lemma tagged_app : forall j tags out k x, length tags = length out ->
  tagged j (tags ++ [k]) (out ++ [x]) = tagged j tags out ++ (if (k =? j)%nat then [x] else []).
Proof.
  intros j tags; induction tags as [|t ts IH]; intros out k x H; destruct out as [|y out];
    simpl in H; try discriminate; simpl.
  - destruct (k =? j)%nat; reflexivity.
  - rewrite IH by lia. destruct (t =? j)%nat; reflexivity.
Qed.

Lemma tagged_interleaving : forall out tags ls,
  length tags = length out -> Forall (fun t => (t < length ls)%nat) tags ->
  (forall k l, nth_error ls k = Some l -> l = tagged k tags out) ->
  interleaving ls out.
Proof.
  induction out as [|x out IH]; intros tags ls Hlen Hlt Hls.
  - constructor. apply Forall_forall; intros l Hl.
    apply In_nth_error in Hl as [k Hk]. rewrite (Hls k l Hk).
    destruct tags; reflexivity.
  - destruct tags as [|t ts]; [discriminate|].
    inversion Hlt as [|? ? Ht Hts]; subst.
    destruct (nth_error ls t) as [lt|] eqn:Hnt; [|apply nth_error_None in Hnt; lia].
    pose proof (Hls t lt Hnt) as Hlt'. simpl in Hlt'; rewrite Nat.eqb_refl in Hlt'.
    destruct (nth_error_split ls t Hnt) as [ls1 [ls2 [-> Hl1]]].
    rewrite Hlt'. apply il_step.
    apply (IH ts); [simpl in Hlen; lia | rewrite length_app in *; simpl in *; exact Hts|].
    intros k l Hk.
    destruct (Nat.lt_total k (length ls1)) as [Hlt1|[Heq|Hgt]].
    + rewrite nth_error_app1 in Hk by exact Hlt1.
      assert (Hk' : nth_error (ls1 ++ lt :: ls2) k = Some l) by (rewrite nth_error_app1; auto).
      rewrite (Hls k l Hk'); simpl.
      rewrite (proj2 (Nat.eqb_neq t k)) by lia; reflexivity.
    + subst k. rewrite nth_error_app2, Nat.sub_diag in Hk by lia.
      simpl in Hk; injection Hk as <-. rewrite Hl1; reflexivity.
    + rewrite nth_error_app2 in Hk by lia.
      assert (Hk' : nth_error (ls1 ++ lt :: ls2) k = Some l)
        by (rewrite nth_error_app2 by lia; destruct (k - length ls1)%nat eqn:E; [lia | exact Hk]).
      rewrite (Hls k l Hk'); simpl.
      rewrite (proj2 (Nat.eqb_neq t k)) by lia; reflexivity.
Qed.

Lemma appends_inv_init : forall ws, appends_inv ws (init_state ws).
Proof.
  intros ws; unfold appends_inv, init_state; simpl.
  split; [apply length_map|].
  split; [induction ws; simpl; auto|].
  split; [intros k x cur p H; rewrite nth_error_map in H;
          destruct (nth_error ws k); discriminate|].
  split; [induction ws as [|w ws IH]; simpl; auto|].
  split; [discriminate|].
  exists []; split; [reflexivity|]; split; [constructor|].
  intros k l t Hl Ht. rewrite nth_error_map, Hl in Ht. injection Ht as <-. reflexivity.
Qed.

Lemma appends_inv_step : forall ws a st st',
  appends_inv ws st -> step a st = Some st' -> appends_inv ws st'.
Proof.
  intros ws a st st' [Hlen [Hcrit [Hload [Hcnt [Hret [tags [Htl [Htlt Htag]]]]]]]] Hs.
  destruct a as [k|].
  2: { simpl in Hs. destruct (wg_counter st) eqn:Hc; [|discriminate].
       destruct (returned st) eqn:Hr; [discriminate|].
       injection Hs as <-. unfold appends_inv; simpl.
       split; [exact Hlen|]. split; [exact Hcrit|]. split; [exact Hload|].
       split; [exact Hcnt|]. split; [intros e He; injection He as <-; split; reflexivity|].
       exists tags; split; [exact Htl|]; split; [exact Htlt | exact Htag]. }
  simpl in Hs.
  destruct (nth_error (threads st) k) as [t|] eqn:Hk; [|discriminate].
  assert (Hnr : returned st = None).
  { destruct (returned st) as [e|] eqn:Hr; [|reflexivity]. exfalso.
    destruct (Hret e eq_refl) as [_ H0].
    destruct t; try discriminate;
      pose proof (countb_pos (fun t => negb (finishedb t)) _ _ _ Hk eq_refl); lia. }
  assert (Hklen : (k < length ws)%nat)
    by (rewrite <- Hlen; apply nth_error_Some; congruence).
  destruct (nth_error ws k) as [lk|] eqn:Hwk; [|apply nth_error_None in Hwk; lia].
  pose proof (Htag k lk t Hwk Hk) as Hlk.
  (* the general shape of the new state *)
  assert (Hgen : forall t' sh m c tags',
    st' = set_thread st k t' sh m c ->
    countb in_crit (set_nth (threads st) k t') = (if m then 1 else 0)%nat ->
    (forall j x cur p, nth_error (set_nth (threads st) k t') j = Some (Loaded x cur p) -> cur = sh) ->
    c = countb (fun t => negb (finishedb t)) (set_nth (threads st) k t') ->
    length tags' = length sh -> Forall (fun t => (t < length ws)%nat) tags' ->
    lk = tagged k tags' sh ++ rem t' ->
    (forall j l u, j <> k -> nth_error ws j = Some l -> nth_error (threads st) j = Some u ->
       tagged j tags' sh = tagged j tags (shared st)) ->
    appends_inv ws st').
  { intros t' sh m c tags' -> H1 H2 H3 H4 H5 H6 H7. unfold appends_inv, set_thread; simpl.
    split; [rewrite length_set_nth; exact Hlen|]. split; [exact H1|]. split; [exact H2|].
    split; [exact H3|]. split; [rewrite Hnr; discriminate|].
    exists tags'; split; [exact H4|]; split; [exact H5|].
    intros j l u Hj Hu. rewrite nth_error_set_nth, Hk in Hu.
    destruct (Nat.eqb_spec j k) as [->|Hne].
    - injection Hu as <-. rewrite Hwk in Hj; injection Hj as <-. exact H6.
    - rewrite (H7 j l u Hne Hj Hu). apply Htag; assumption. }
  assert (Hother : forall t' j x cur p,
    nth_error (set_nth (threads st) k t') j = Some (Loaded x cur p) -> j <> k ->
    nth_error (threads st) j = Some (Loaded x cur p)).
  { intros t' j x cur p H Hne. rewrite nth_error_set_nth in H.
    rewrite (proj2 (Nat.eqb_neq j k) Hne) in H; exact H. }
  pose proof (fun t' => countb_set_nth in_crit _ k t t' Hk) as Hc1.
  pose proof (fun t' => countb_set_nth (fun t => negb (finishedb t)) _ k t t' Hk) as Hc2.
  destruct t as [[|x p]|x p|x cur p|p|]; try discriminate.
  - (* group.Done() *)
    injection Hs as <-.
    specialize (Hc1 Finished); specialize (Hc2 Finished); simpl in Hc1, Hc2.
    apply (Hgen Finished (shared st) (mutex_held st) (wg_counter st - 1)%nat tags); auto.
    + rewrite <- Hcrit; lia.
    + intros j x cur p H. destruct (Nat.eq_dec j k) as [->|Hne].
      * rewrite nth_error_set_nth, Nat.eqb_refl, Hk in H; discriminate.
      * exact (Hload _ _ _ _ (Hother _ _ _ _ _ H Hne)).
    + lia.
  - (* mutex.Lock() *)
    destruct (mutex_held st) eqn:Hm; [discriminate|]. injection Hs as <-.
    specialize (Hc1 (InCrit x p)); specialize (Hc2 (InCrit x p)); simpl in Hc1, Hc2.
    apply (Hgen (InCrit x p) (shared st) true (wg_counter st) tags); auto.
    + lia.
    + intros j y cur q H. destruct (Nat.eq_dec j k) as [->|Hne].
      * rewrite nth_error_set_nth, Nat.eqb_refl, Hk in H; discriminate.
      * exact (Hload _ _ _ _ (Hother _ _ _ _ _ H Hne)).
    + lia.
  - (* read *e *)
    injection Hs as <-.
    specialize (Hc1 (Loaded x (shared st) p)); specialize (Hc2 (Loaded x (shared st) p));
      simpl in Hc1, Hc2.
    apply (Hgen (Loaded x (shared st) p) (shared st) (mutex_held st) (wg_counter st) tags); auto.
    + lia.
    + intros j y cur q H. destruct (Nat.eq_dec j k) as [->|Hne].
      * rewrite nth_error_set_nth, Nat.eqb_refl, Hk in H; injection H as _ <- _; reflexivity.
      * exact (Hload _ _ _ _ (Hother _ _ _ _ _ H Hne)).
    + lia.
  - (* *e = append(cur, x) *)
    injection Hs as <-.
    pose proof (Hload k x cur p Hk) as ->.
    specialize (Hc1 (Stored p)); specialize (Hc2 (Stored p)); simpl in Hc1, Hc2.
    apply (Hgen (Stored p) (shared st ++ [x]) (mutex_held st) (wg_counter st) (tags ++ [k])).
    + reflexivity.
    + lia.
    + intros j y cur q H. destruct (Nat.eq_dec j k) as [->|Hne].
      * rewrite nth_error_set_nth, Nat.eqb_refl, Hk in H; discriminate.
      * exfalso. pose proof (countb_two in_crit _ j k _ _ Hne (Hother _ _ _ _ _ H Hne) Hk
          eq_refl eq_refl). destruct (mutex_held st); lia.
    + lia.
    + rewrite !length_app, Htl; reflexivity.
    + apply Forall_app; split; [exact Htlt | constructor; [exact Hklen | constructor]].
    + rewrite tagged_app by exact Htl. rewrite Nat.eqb_refl, Hlk, <- app_assoc; reflexivity.
    + intros j l u Hne _ _. rewrite tagged_app by exact Htl.
      rewrite (proj2 (Nat.eqb_neq k j)) by congruence. apply app_nil_r.
  - (* deferred mutex.Unlock() *)
    injection Hs as <-.
    specialize (Hc1 (AtLock p)); specialize (Hc2 (AtLock p)); simpl in Hc1, Hc2.
    apply (Hgen (AtLock p) (shared st) false (wg_counter st) tags); auto.
    + destruct (mutex_held st); lia.
    + intros j y cur q H. destruct (Nat.eq_dec j k) as [->|Hne].
      * rewrite nth_error_set_nth, Nat.eqb_refl, Hk in H; discriminate.
      * exact (Hload _ _ _ _ (Hother _ _ _ _ _ H Hne)).
    + lia.
Qed.

Lemma appends_inv_exec : forall ws sched st st',
  appends_inv ws st -> exec sched st = Some st' -> appends_inv ws st'.
Proof.
  intros ws sched; induction sched as [|a sched IH]; intros st st' Hi H.
  - injection H as <-; exact Hi.
  - simpl in H. destruct (step a st) as [s|] eqn:Hs; [|discriminate].
    exact (IH s st' (appends_inv_step ws a st s Hi Hs) H).
Qed.

Lemma appends_inv_returned : forall ws st errs,
  appends_inv ws st -> returned st = Some errs ->
  Forall (fun t => t = Finished) (threads st) /\ interleaving ws errs.
Proof.
  intros ws st errs [Hlen [_ [_ [Hcnt [Hret [tags [Htl [Htlt Htag]]]]]]]] Hr.
  destruct (Hret errs Hr) as [-> H0].
  rewrite Hcnt in H0. apply countb_zero in H0.
  assert (Hfin : Forall (fun t => t = Finished) (threads st)).
  { eapply Forall_impl; [|exact H0]. intros t Ht; destruct t; try discriminate; reflexivity. }
  split; [exact Hfin|].
  apply (tagged_interleaving _ tags); [exact Htl | exact Htlt|].
  intros k l Hl.
  destruct (nth_error (threads st) k) as [t|] eqn:Ht.
  - rewrite (Htag k l t Hl Ht).
    rewrite Forall_forall in Hfin. rewrite (Hfin t (nth_error_In _ _ Ht)); apply app_nil_r.
  - apply nth_error_None in Ht. assert (nth_error ws k <> None) by congruence.
    apply nth_error_Some in H; lia.
Qed.

(** C9: in every run of the goroutines of one [BulkPush] or [BulkPop]
    call, whatever the schedule, at most one worker is between
    [mutex.Lock()] and the deferred [mutex.Unlock()] of [addBulkError];
    when the calling goroutine returns from [group.Wait()], every worker
    has called [group.Done()], and the list it returns holds each worker's
    appends in the worker's order, none lost and none duplicated (a
    permutation of all of them): it is a result of [BulkPush]/[BulkPop]. *)
Theorem bulk_errors_appended_exclusively : forall ws sched st,
  exec sched (init_state ws) = Some st ->
  (countb in_crit (threads st) <= 1)%nat /\
  (forall errs, returned st = Some errs ->
     Forall (fun t => t = Finished) (threads st) /\
     interleaving ws errs /\ Permutation errs (concat ws) /\
     (forall env collection bucket p records,
        BulkPush_workers env collection bucket p records = Ok ws ->
        BulkPush_returns env collection bucket p records errs) /\
     (forall env collection bucket p records,
        BulkPop_workers env collection bucket p records = Ok ws ->
        BulkPop_returns env collection bucket p records errs)).
Proof.
  intros ws sched st H.
  pose proof (appends_inv_exec ws sched _ _ (appends_inv_init ws) H) as Hi.
  split.
  - destruct Hi as [_ [Hc _]]. rewrite Hc. destruct (mutex_held st); lia.
  - intros errs Hr. destruct (appends_inv_returned ws st errs Hi Hr) as [Hf Hil].
    split; [exact Hf|]. split; [exact Hil|].
    split; [exact (interleaving_perm ws errs Hil)|].
    split; intros env collection bucket p records Hw; exists ws; split; assumption.
Qed.

Lemma bulk_errors_appended_exclusively_witness :
  BulkPush_workers env_ack_fails [x63] [x62] 2 two_records =
    Ok [[bulk_error (rec_of x41) ErrClosed; bulk_error (rec_of x41) (ErrIO 7)];
        [bulk_error (rec_of x42) ErrClosed; bulk_error (rec_of x42) (ErrIO 7)]] /\
  exists st,
    exec sched_alternate
      (init_state [[bulk_error (rec_of x41) ErrClosed; bulk_error (rec_of x41) (ErrIO 7)];
                   [bulk_error (rec_of x42) ErrClosed; bulk_error (rec_of x42) (ErrIO 7)]])
      = Some st /\
    returned st = Some [bulk_error (rec_of x41) ErrClosed; bulk_error (rec_of x42) ErrClosed;
                        bulk_error (rec_of x41) (ErrIO 7); bulk_error (rec_of x42) (ErrIO 7)] /\
    (countb in_crit (threads st) <= 1)%nat /\
    BulkPush_returns env_ack_fails [x63] [x62] 2 two_records
      [bulk_error (rec_of x41) ErrClosed; bulk_error (rec_of x42) ErrClosed;
       bulk_error (rec_of x41) (ErrIO 7); bulk_error (rec_of x42) (ErrIO 7)].
Proof.
  assert (Hw : BulkPush_workers env_ack_fails [x63] [x62] 2 two_records =
    Ok [[bulk_error (rec_of x41) ErrClosed; bulk_error (rec_of x41) (ErrIO 7)];
        [bulk_error (rec_of x42) ErrClosed; bulk_error (rec_of x42) (ErrIO 7)]])
    by (vm_compute; reflexivity).
  split; [exact Hw|].
  pose (st := match exec sched_alternate
      (init_state [[bulk_error (rec_of x41) ErrClosed; bulk_error (rec_of x41) (ErrIO 7)];
                   [bulk_error (rec_of x42) ErrClosed; bulk_error (rec_of x42) (ErrIO 7)]])
    with Some s => s | None => init_state [] end).
  assert (He : exec sched_alternate
      (init_state [[bulk_error (rec_of x41) ErrClosed; bulk_error (rec_of x41) (ErrIO 7)];
                   [bulk_error (rec_of x42) ErrClosed; bulk_error (rec_of x42) (ErrIO 7)]])
      = Some st) by (vm_compute; reflexivity).
  assert (Hr : returned st = Some [bulk_error (rec_of x41) ErrClosed; bulk_error (rec_of x42) ErrClosed;
                        bulk_error (rec_of x41) (ErrIO 7); bulk_error (rec_of x42) (ErrIO 7)])
    by (vm_compute; reflexivity).
  pose proof (bulk_errors_appended_exclusively _ _ _ He) as [Hc Hret].
  exists st. split; [exact He|]. split; [exact Hr|]. split; [exact Hc|].
  destruct (Hret _ Hr) as [_ [_ [_ [Hp _]]]]. exact (Hp _ _ _ _ _ Hw).
Defined.

(** Without [errMutex] the same two workers, one append each, can both
    read [*e] before either stores it: one append is lost, and the list is
    not an interleaving of the workers' appends. *)
Lemma unsync_loses_append :
  exists st,
    exec_unsync sched_overlap
      (init_state [[bulk_error (rec_of x41) ErrClosed]; [bulk_error (rec_of x42) ErrClosed]])
      = Some st /\
    returned st = Some [bulk_error (rec_of x42) ErrClosed] /\
    ~ interleaving [[bulk_error (rec_of x41) ErrClosed]; [bulk_error (rec_of x42) ErrClosed]]
        [bulk_error (rec_of x42) ErrClosed].
Proof.
  eexists; split; [vm_compute; reflexivity|]. split; [vm_compute; reflexivity|].
  intros H. apply interleaving_count in H as [H _]. simpl in H; lia.
Qed.
